(** * golang-telegram-bot: request signing and position reporting

    A shallow embedding of [main.go]: the request signer ([urlEncode],
    [getRequestParamString], [sign]) and the position reporter
    ([queryFairPriceForSymbol], [main]), with the properties the
    specification states about them.

    Go strings are byte sequences: they are modelled as [string] (a list
    of 8-bit [ascii] characters).  Maps are stdpp's [gmap]. *)

From Stdlib Require Import ZArith NArith Ascii String List Lia Bool Floats.
From stdpp Require Import base gmap strings list sorting.

(** * The program *)

(** ** Bytes and strings *)

Module Bytes.

Definition code (c : ascii) : N := N_of_ascii c.

(** [lo <= c <= hi] on byte values, as the Go comparisons on [byte]. *)
Definition between (lo hi c : ascii) : bool :=
  (code lo <=? code c)%N && (code c <=? code hi)%N.

Fixpoint concat_map (f : ascii → string) (s : string) : string :=
  match s with
  | EmptyString => EmptyString
  | String c s' => f c +:+ concat_map f s'
  end.

Fixpoint all (p : ascii → bool) (s : string) : bool :=
  match s with
  | EmptyString => true
  | String c s' => p c && all p s'
  end.

Fixpoint last (s : string) : option ascii :=
  match s with
  | EmptyString => None
  | String c EmptyString => Some c
  | String _ s' => last s'
  end.

End Bytes.

(** ** The library functions the signer calls *)

Module strings.

(** [strings.ReplaceAll(s, old, new)] for a non-empty [old]: the
    leftmost non-overlapping occurrences of [old] are replaced, scanning
    from the left.  [skip] counts the bytes of a matched occurrence that
    are still to be dropped.  (With an empty [old] the library inserts
    [new] around every UTF-8 sequence; the program never does that and
    this model does not cover it.) *)
Fixpoint replace_from (old new : string) (skip : nat) (s : string) : string :=
  match s with
  | EmptyString => EmptyString
  | String c s' =>
      match skip with
      | S k => replace_from old new k s'
      | O =>
          if String.prefix old s
          then new +:+ replace_from old new (String.length old - 1) s'
          else String c (replace_from old new 0 s')
      end
  end.

Definition ReplaceAll (s old new : string) : string :=
  replace_from old new 0 s.

(** [strings.HasSuffix] and [strings.TrimSuffix]: at most one copy of
    the suffix is removed. *)
Definition HasSuffix (s suffix : string) : bool :=
  (String.length suffix <=? String.length s)%nat &&
  String.eqb (String.substring (String.length s - String.length suffix)
                               (String.length suffix) s) suffix.

Definition TrimSuffix (s suffix : string) : string :=
  if HasSuffix s suffix
  then String.substring 0 (String.length s - String.length suffix) s
  else s.

End strings.

Module url.

Definition upperhex : string := "0123456789ABCDEF".

Definition hexdigit (n : N) : ascii :=
  match String.get (N.to_nat n) upperhex with
  | Some d => d
  | None => "0"%char
  end.

(** [shouldEscape(c, encodeQueryComponent)]: letters, digits and the
    marks [-_.~] are kept; the reserved characters and everything else
    are escaped. *)
Definition shouldEscape (c : ascii) : bool :=
  if Bytes.between "a" "z" c || Bytes.between "A" "Z" c || Bytes.between "0" "9" c
  then false
  else if Ascii.eqb c "-" || Ascii.eqb c "_" || Ascii.eqb c "." || Ascii.eqb c "~"
  then false
  else true.

(** One byte of [escape(s, encodeQueryComponent)]. *)
Definition escape_byte (c : ascii) : string :=
  if Ascii.eqb c " " then "+"
  else if shouldEscape c
  then String "%" (String (hexdigit (N.shiftr (Bytes.code c) 4))
                  (String (hexdigit (N.land (Bytes.code c) 15)) EmptyString))
  else String c EmptyString.

Definition QueryEscape (s : string) : string :=
  Bytes.concat_map escape_byte s.

End url.

Module sort.

(** [sort.Strings]: the slice sorted in increasing order, strings
    compared byte by byte.  Equal strings are indistinguishable, so the
    result does not depend on the sorting algorithm. *)
Definition Strings (keys : list string) : list string :=
  merge_sort String.le keys.

End sort.

(** ** The request signer: canonical parameter string *)

(** [urlEncode] (main.go, 21-23). *)
Definition urlEncode (s : string) : string :=
  strings.ReplaceAll (url.QueryEscape s) "+" "%20".

(** [params[k]]: a missing key reads as the empty string. *)
Definition index_map (params : gmap string string) (k : string) : string :=
  default "" (params !! k).

(** [getRequestParamString] (main.go, 26-39).  The loop [for k := range
    params] visits the keys in an unspecified order: [order] is the order
    of one execution. *)
Definition getRequestParamString_in (order : list string)
    (params : gmap string string) : string :=
  let keys := sort.Strings order in
  let paramStr :=
    fold_left (fun b k => b +:+ ((k +:+ "=" +:+ urlEncode (index_map params k)) +:+ "&"))
              keys "" in
  strings.TrimSuffix paramStr "&".

(** The key orders a [range] loop over [params] can produce. *)
Definition range_order (params : gmap string string) (order : list string) : Prop :=
  order ≡ₚ (map_to_list params).*1.

(** One execution, with the keys visited in the order of [map_to_list]. *)
Definition getRequestParamString (params : gmap string string) : string :=
  getRequestParamString_in (map_to_list params).*1 params.

Example urlEncode_space : urlEncode "x y" = "x%20y".
Proof. reflexivity. Qed.

Example urlEncode_plus : urlEncode "a+b&c=d/é~" = "a%2Bb%26c%3Dd%2F%C3%A9~".
Proof. reflexivity. Qed.

Example canonical_ab :
  getRequestParamString_in ["b"; "a"] {[ "a" := "x y"; "b" := "1" ]} = "a=x%20y&b=1".
Proof. vm_compute. reflexivity. Qed.


(** ** SHA-256, HMAC and hexadecimal encoding

    [crypto/sha256], [crypto/hmac] and [encoding/hex] are modelled from
    their sources in the Go library: the streaming [digest] object, the
    [hmac] object built from two hash objects, and the encoder.  A
    [[]byte] is a [list ascii]. *)

Module sha256.

#[local] Open Scope Z_scope.

Definition Size : nat := 32.
Definition BlockSize : nat := 64.

(** [uint32] arithmetic wraps around. *)
Definition u32 (x : Z) : Z := x mod 2 ^ 32.
Definition add32 (x y : Z) : Z := u32 (x + y).
Definition not32 (x : Z) : Z := u32 (Z.lnot x).
(** [bits.RotateLeft32(x, -n)]. *)
Definition rotr (n x : Z) : Z := Z.lor (Z.shiftr x n) (u32 (Z.shiftl x (32 - n))).

Definition Ch (x y z : Z) : Z := Z.lxor (Z.land x y) (Z.land (not32 x) z).
Definition Maj (x y z : Z) : Z := Z.lxor (Z.lxor (Z.land x y) (Z.land x z)) (Z.land y z).
Definition Sigma0 (x : Z) : Z := Z.lxor (Z.lxor (rotr 2 x) (rotr 13 x)) (rotr 22 x).
Definition Sigma1 (x : Z) : Z := Z.lxor (Z.lxor (rotr 6 x) (rotr 11 x)) (rotr 25 x).
Definition sigma0 (x : Z) : Z := Z.lxor (Z.lxor (rotr 7 x) (rotr 18 x)) (Z.shiftr x 3).
Definition sigma1 (x : Z) : Z := Z.lxor (Z.lxor (rotr 17 x) (rotr 19 x)) (Z.shiftr x 10).

(** The round constants, eight to a row. *)
Definition _K : list Z :=
  [0x428a2f98; 0x71374491; 0xb5c0fbcf; 0xe9b5dba5; 0x3956c25b; 0x59f111f1; 0x923f82a4; 0xab1c5ed5] ++
  [0xd807aa98; 0x12835b01; 0x243185be; 0x550c7dc3; 0x72be5d74; 0x80deb1fe; 0x9bdc06a7; 0xc19bf174] ++
  [0xe49b69c1; 0xefbe4786; 0x0fc19dc6; 0x240ca1cc; 0x2de92c6f; 0x4a7484aa; 0x5cb0a9dc; 0x76f988da] ++
  [0x983e5152; 0xa831c66d; 0xb00327c8; 0xbf597fc7; 0xc6e00bf3; 0xd5a79147; 0x06ca6351; 0x14292967] ++
  [0x27b70a85; 0x2e1b2138; 0x4d2c6dfc; 0x53380d13; 0x650a7354; 0x766a0abb; 0x81c2c92e; 0x92722c85] ++
  [0xa2bfe8a1; 0xa81a664b; 0xc24b8b70; 0xc76c51a3; 0xd192e819; 0xd6990624; 0xf40e3585; 0x106aa070] ++
  [0x19a4c116; 0x1e376c08; 0x2748774c; 0x34b0bcb5; 0x391c0cb3; 0x4ed8aa4a; 0x5b9cca4f; 0x682e6ff3] ++
  [0x748f82ee; 0x78a5636f; 0x84c87814; 0x8cc70208; 0x90befffa; 0xa4506ceb; 0xbef9a3f7; 0xc67178f2].

(** The eight working variables, also the chaining value [d.h]. *)
Record regs := Regs { ra : Z; rb : Z; rc : Z; rd : Z; re : Z; rf : Z; rg : Z; rh : Z }.

Definition init : regs :=
  Regs 0x6a09e667 0xbb67ae85 0x3c6ef372 0xa54ff53a 0x510e527f 0x9b05688c 0x1f83d9ab 0x5be0cd19.

Definition byte_val (c : ascii) : Z := Z.of_N (N_of_ascii c).
Definition byte_of (x : Z) : ascii := ascii_of_N (Z.to_N (x mod 256)).

(** Big-endian words of a block. *)
Fixpoint be_words (p : list ascii) : list Z :=
  match p with
  | b0 :: b1 :: b2 :: b3 :: p' =>
      Z.lor (Z.lor (Z.lor (Z.shiftl (byte_val b0) 24) (Z.shiftl (byte_val b1) 16))
                   (Z.shiftl (byte_val b2) 8)) (byte_val b3) :: be_words p'
  | _ => []
  end.

(** The message schedule, most recent word first: [w[i] = sigma1 w[i-2] +
    w[i-7] + sigma0 w[i-15] + w[i-16]]. *)
Fixpoint schedule (n : nat) (wr : list Z) : list Z :=
  match n with
  | O => wr
  | S n' =>
      let w := add32 (add32 (add32 (sigma1 (nth 1 wr 0)) (nth 6 wr 0)) (sigma0 (nth 14 wr 0)))
                     (nth 15 wr 0) in
      schedule n' (w :: wr)
  end.

Definition round (r : regs) (kw : Z * Z) : regs :=
  let '(Regs a b c d e f g h) := r in
  let t1 := add32 (add32 (add32 (add32 h (Sigma1 e)) (Ch e f g)) kw.1) kw.2 in
  let t2 := add32 (Sigma0 a) (Maj a b c) in
  Regs (add32 t1 t2) a b c (add32 d t1) e f g.

(** One 64-byte chunk of [block]. *)
Definition block1 (h0 : regs) (chunk : list ascii) : regs :=
  let w := rev (schedule 48 (rev (be_words chunk))) in
  let r := fold_left round (combine _K w) h0 in
  Regs (add32 (ra h0) (ra r)) (add32 (rb h0) (rb r)) (add32 (rc h0) (rc r)) (add32 (rd h0) (rd r))
       (add32 (re h0) (re r)) (add32 (rf h0) (rf r)) (add32 (rg h0) (rg r)) (add32 (rh h0) (rh r)).

(** [block(dig, p)]: [for len(p) >= chunk { ...; p = p[chunk:] }].  The
    loop runs at most [len(p)] times. *)
Fixpoint block_loop (fuel : nat) (h : regs) (p : list ascii) : regs :=
  match fuel with
  | O => h
  | S fuel' =>
      if Nat.leb 64 (length p)
      then block_loop fuel' (block1 h (take 64 p)) (drop 64 p)
      else h
  end.

Definition block (h : regs) (p : list ascii) : regs := block_loop (length p) h p.

Definition be_bytes (n : nat) (x : Z) : list ascii :=
  map (fun i => byte_of (Z.shiftr x (8 * Z.of_nat (n - 1 - i)))) (seq 0 n).

(** The padding of [checkSum]: a 1 bit, 0 bits up to 56 bytes mod 64, and
    the length in bits as a big-endian [uint64]. *)
Definition padding (len : Z) : list ascii :=
  let t := if len mod 64 <? 56 then 56 - len mod 64 else 64 + 56 - len mod 64 in
  byte_of 0x80 :: repeat (byte_of 0) (Z.to_nat (t - 1)) ++ be_bytes 8 (Z.shiftl len 3 mod 2 ^ 64).

Definition digest_bytes (h : regs) : list ascii :=
  be_bytes 4 (ra h) ++ be_bytes 4 (rb h) ++ be_bytes 4 (rc h) ++ be_bytes 4 (rd h) ++
  be_bytes 4 (re h) ++ be_bytes 4 (rf h) ++ be_bytes 4 (rg h) ++ be_bytes 4 (rh h).

(** The [digest] object: chaining value, buffered bytes ([x[:nx]]) and
    the number of bytes written, a [uint64]. *)
Record digest := Digest { h : regs; x : list ascii; len : Z }.

(** [d.Reset()]. *)
Definition Reset (d : digest) : digest := Digest init [] 0.

(** [sha256.New()]: [d := new(digest); d.Reset()]. *)
Definition New : digest := Reset (Digest (Regs 0 0 0 0 0 0 0 0) [] 0).

(** [digest.Write]: fill and flush the buffer, hash the whole chunks of
    what is left, buffer the rest. *)
Definition Write (d : digest) (p : list ascii) : digest :=
  let len' := (len d + Z.of_nat (length p)) mod 2 ^ 64 in
  let '(h1, x1, p1) :=
    if Nat.ltb 0 (length (x d)) then
      let n := Nat.min (64 - length (x d)) (length p) in
      let x' := x d ++ take n p in
      if Nat.eqb (length x') 64 then (block (h d) x', [], drop n p)
      else (h d, x', drop n p)
    else (h d, x d, p) in
  let '(h2, p2) :=
    if Nat.leb 64 (length p1) then
      let n := (length p1 / 64 * 64)%nat in
      (block h1 (take n p1), drop n p1)
    else (h1, p1) in
  let x2 := if Nat.ltb 0 (length p2) then p2 else x1 in
  Digest h2 x2 len'.

(** [checkSum] on a copy of the digest: write the padding, read the
    chaining value.  (The library panics if bytes were left in the buffer;
    [Write_padding_flushes] shows that none are.) *)
Definition checkSum (d : digest) : list ascii :=
  digest_bytes (h (Write d (padding (len d)))).

Definition Sum (d : digest) (b : list ascii) : list ascii := b ++ checkSum d.

(** ** SHA-256 of a whole message, as FIPS 180-4 defines it: pad the
    message, then chain the compression function over its chunks. *)
Definition Sum256 (msg : list ascii) : list ascii :=
  let padded := msg ++ padding (Z.of_nat (length msg) mod 2 ^ 64) in
  digest_bytes (block init padded).

End sha256.

Module hash.

(** The [hash.Hash] interface, with the constructor [func() hash.Hash]. *)
Record Hash := {
  state : Type;
  New : state;
  Write : state → list ascii → state;
  Sum : state → list ascii → list ascii;
  Reset : state → state;
  Size : nat;
  BlockSize : nat
}.

End hash.

Definition sha256_Hash : hash.Hash := {|
  hash.state := sha256.digest;
  hash.New := sha256.New;
  hash.Write := sha256.Write;
  hash.Sum := sha256.Sum;
  hash.Reset := sha256.Reset;
  hash.Size := sha256.Size;
  hash.BlockSize := sha256.BlockSize
|}.

Module hmac.

Record hmac (H : hash.Hash) := Hmac {
  opad : list ascii;
  ipad : list ascii;
  outer : hash.state H;
  inner : hash.state H
}.
#[global] Arguments Hmac {H}.
#[global] Arguments opad {H}.
#[global] Arguments ipad {H}.
#[global] Arguments outer {H}.
#[global] Arguments inner {H}.

(** [copy(dst, src)]. *)
Definition copy (dst src : list ascii) : list ascii :=
  let n := Nat.min (length dst) (length src) in take n src ++ drop n dst.

Definition xor_byte (k : N) (c : ascii) : ascii :=
  ascii_of_N (N.lxor (N_of_ascii c) k).

(** [hmac.New(h, key)]. *)
Definition New (H : hash.Hash) (key : list ascii) : hmac H :=
  let outer0 := hash.New H in
  let inner0 := hash.New H in
  let blocksize := hash.BlockSize H in
  let '(outer1, key1) :=
    if Nat.ltb blocksize (length key)
    then let o := hash.Write H outer0 key in (o, hash.Sum H o [])
    else (outer0, key) in
  let ipad0 := copy (repeat Ascii.zero blocksize) key1 in
  let opad0 := copy (repeat Ascii.zero blocksize) key1 in
  let ipad1 := map (xor_byte 0x36) ipad0 in
  let opad1 := map (xor_byte 0x5c) opad0 in
  Hmac opad1 ipad1 outer1 (hash.Write H inner0 ipad1).

Definition Write {H : hash.Hash} (m : hmac H) (p : list ascii) : hmac H :=
  Hmac (opad m) (ipad m) (outer m) (hash.Write H (inner m) p).

(** [hmac.Sum(in)]; the returned object is the receiver afterwards. *)
Definition Sum {H : hash.Hash} (m : hmac H) (b : list ascii) : list ascii :=
  let origLen := length b in
  let b1 := hash.Sum H (inner m) b in
  let outer1 := hash.Write H (hash.Reset H (outer m)) (opad m) in
  let outer2 := hash.Write H outer1 (drop origLen b1) in
  hash.Sum H outer2 (take origLen b1).

End hmac.

Module hex.

Definition hextable : string := "0123456789abcdef".

Definition digit (n : N) : ascii :=
  match String.get (N.to_nat n) hextable with
  | Some d => d
  | None => "0"%char
  end.

(** [hex.EncodeToString]: [hextable[v>>4]], [hextable[v&0x0f]] for each
    byte. *)
Fixpoint EncodeToString (src : list ascii) : string :=
  match src with
  | [] => EmptyString
  | v :: src' =>
      String (digit (N.shiftr (N_of_ascii v) 4))
        (String (digit (N.land (N_of_ascii v) 15)) (EncodeToString src'))
  end.

End hex.

(** [sign] (main.go, 42-48). *)
Definition sign (accessKey secretKey reqTime paramStr : string) : string :=
  let toSign := (accessKey +:+ reqTime) +:+ paramStr in
  let mac := hmac.New sha256_Hash (list_ascii_of_string secretKey) in
  let mac := hmac.Write mac (list_ascii_of_string toSign) in
  hex.EncodeToString (hmac.Sum mac []).

Example Sum256_abc :
  hex.EncodeToString (sha256.Sum256 (list_ascii_of_string "abc"))
  = "ba7816bf8f01cfea414140de5dae2223b00361a396177a9cb410ff61f20015ad".
Proof. vm_compute. reflexivity. Qed.

Example sign_rfc4231_case2 :
  sign "what do ya " "Jefe" "want for " "nothing?"
  = "5bdcc146bf60754e6a042426089575c75a003f089d2739839dec58b964ec3843".
Proof. vm_compute. reflexivity. Qed.

Example sign_long_key :
  sign "a" (String.concat "" (repeat "0123456789abcde" 9)) "1572936251000" ""
  = "4783f2edeb953cfc88ab0e46668b5f90655e1fc3e75fab3b7dbbe0b7264094d4".
Proof. vm_compute. reflexivity. Qed.

(** ** The position reporter

    The libraries the reporter calls are modelled at their documented
    behaviour: [strconv] formatting, [net/http] headers, and the wall
    clock, the environment, the network and the JSON decoder as the
    [World] the program runs in. *)

Module time.

(** A reading of the wall clock: seconds since the Unix epoch and the
    nanoseconds within that second. *)
Record Time := { sec : Z; nsec : Z }.

(** [t.Unix()], an [int64]. *)
Definition Unix (t : Time) : Z := sec t.

(** [t.UnixMilli()]: the milliseconds since the Unix epoch. *)
Definition UnixMilli (t : Time) : Z := (sec t * 1000 + nsec t / 1000000)%Z.

End time.

(** [int64] arithmetic wraps around. *)
Definition int64 (z : Z) : Z := ((z + 2 ^ 63) mod 2 ^ 64 - 2 ^ 63)%Z.

Module strconv.

#[local] Open Scope Z_scope.

Definition digit_char (d : Z) : ascii := ascii_of_N (N_of_ascii "0" + Z.to_N d).

(** The digit loop of [formatBits], base 10: the digits of [u], most
    significant first, in front of [acc]. *)
Fixpoint format_uint (fuel : nat) (u : Z) (acc : string) : string :=
  match fuel with
  | O => acc
  | S fuel' =>
      let acc' := String (digit_char (u mod 10)) acc in
      if u <? 10 then acc' else format_uint fuel' (u / 10) acc'
  end.

(** A number has no more decimal digits than bits. *)
Definition FormatUint (u : Z) : string :=
  format_uint (S (Z.to_nat (Z.log2 u))) u "".

(** [strconv.FormatInt(i, 10)]. *)
Definition FormatInt (i : Z) : string :=
  if i <? 0 then String "-" (FormatUint (- i)) else FormatUint i.

(** The last [n] decimal digits of [v], in front of [acc]. *)
Fixpoint fixed_digits (n : nat) (v : Z) (acc : string) : string :=
  match n with
  | O => acc
  | S n' => fixed_digits n' (v / 10) (String (digit_char (v mod 10)) acc)
  end.

(** [num * 2^e] rounded to the nearest integer, ties to even. *)
Definition round_scaled (num e : Z) : Z :=
  if 0 <=? e then num * 2 ^ e
  else
    let den := 2 ^ (- e) in
    let q := num / den in
    match (2 * (num mod den) ?= den) with
    | Lt => q
    | Eq => if Z.even q then q else q + 1
    | Gt => q + 1
    end.

(** [q / 10^prec] written with [prec] decimals. *)
Definition fixed_point (q : Z) (prec : nat) : string :=
  FormatUint (q / 10 ^ Z.of_nat prec) +:+
  match prec with
  | O => ""
  | _ => String "." (fixed_digits prec (q mod 10 ^ Z.of_nat prec) "")
  end.

Definition sign_string (s : bool) : string := if s then "-" else "".

(** [strconv.FormatFloat(f, 'f', prec, 64)]: the exact value of [f]
    rounded to [prec] decimals, ties to even. *)
Definition FormatFloat (f : float) (prec : nat) : string :=
  match Prim2SF f with
  | S754_nan => "NaN"
  | S754_infinity s => if s then "-Inf" else "+Inf"
  | S754_zero s => sign_string s +:+ fixed_point 0 prec
  | S754_finite s m e =>
      sign_string s +:+ fixed_point (round_scaled (Z.pos m * 10 ^ Z.of_nat prec) e) prec
  end.

End strconv.

Module http.

(** [http.Header]: canonical key to the values added under it. *)
Abbreviation Header := (gmap string (list string)).

Record Request := { Method : string; URL : string; Hdr : Header }.

Definition isToken (c : ascii) : bool :=
  Bytes.between "a" "z" c || Bytes.between "A" "Z" c || Bytes.between "0" "9" c
  || match String.index 0 (String c "") "!#$%&'*+-.^_`|~" with
     | Some _ => true
     | None => false
     end.

Definition shift_case (c : ascii) (up : bool) : ascii :=
  ascii_of_N (if up then Bytes.code c - 32 else Bytes.code c + 32).

(** First letter upper case, and upper case after each dash. *)
Fixpoint canonical_from (upper : bool) (s : string) : string :=
  match s with
  | EmptyString => EmptyString
  | String c s' =>
      let c' :=
        if upper && Bytes.between "a" "z" c then shift_case c true
        else if negb upper && Bytes.between "A" "Z" c then shift_case c false
        else c in
      String c' (canonical_from (Ascii.eqb c' "-") s')
  end.

(** [textproto.CanonicalMIMEHeaderKey]: a key with a byte that is not a
    token character is left as it is. *)
Definition CanonicalMIMEHeaderKey (s : string) : string :=
  if Bytes.all isToken s then canonical_from true s else s.

(** [h.Add(key, value)]. *)
Definition Add (h : Header) (key value : string) : Header :=
  let k := CanonicalMIMEHeaderKey key in
  <[ k := default [] (h !! k) ++ [value] ]> h.

(** [h.Get(key)]: the first value under the key. *)
Definition Get (h : Header) (key : string) : string :=
  match h !! CanonicalMIMEHeaderKey key with
  | Some (v :: _) => v
  | _ => ""
  end.

End http.

(** One open position of [OpenPositionsResponse.Data]. *)
Record Position := { Symbol : string; HoldAvgPrice : float }.

(** What [client.Do] and [ioutil.ReadAll] give for one request: a
    transport error, a body that fails to read, or the body. *)
Inductive exchange :=
| SendFailed (err : string)
| ReadFailed (err : string)
| Body (body : string).

(** The world the program runs in.  An [error] is its message. *)
Record World := {
  (** [os.Getenv] *)
  Getenv : string → string;
  (** the wall clock at its n-th reading *)
  Clock : nat → time.Time;
  (** [http.NewRequest(method, url, nil)]: the error, if the method or the
      URL is malformed *)
  NewRequestErr : string → string → option string;
  (** the outcome of the n-th request handed to [client.Do] *)
  RoundTrip : nat → http.Request → exchange;
  (** [json.Unmarshal] into [OpenPositionsResponse] and [FairPriceResponse] *)
  UnmarshalPositions : string → string + list Position;
  UnmarshalFairPrice : string → string + float
}.

(** What an execution does to the world, in order. *)
Inductive event :=
| Now (t : time.Time)
| Do (req : http.Request)
| Stdout (text : string).

Record State := { reads : nat; sends : nat; trace : list event }.

(** Computations with effects on the world. *)
Definition M (A : Type) : Type := State → A * State.

#[export] Instance M_ret : MRet M := λ A a s, (a, s).
#[export] Instance M_bind : MBind M := λ A B f m s, let '(a, s') := m s in f a s'.

Definition newline : string := String (ascii_of_nat 10) "".

Section Reporter.

Variable w : World.

Definition time_Now : M time.Time := λ s,
  let t := Clock w (reads s) in
  (t, {| reads := S (reads s); sends := sends s; trace := trace s ++ [Now t] |}).

Definition client_Do (req : http.Request) : M exchange := λ s,
  (RoundTrip w (sends s) req,
   {| reads := reads s; sends := S (sends s); trace := trace s ++ [Do req] |}).

Definition fmt_Print (text : string) : M unit := λ s,
  (tt, {| reads := reads s; sends := sends s; trace := trace s ++ [Stdout text] |}).

(** The request both call sites build: [http.NewRequest("GET", url, nil)]
    and the four [req.Header.Add] calls. *)
Definition add_headers (fullURL accessKey reqTime signature : string) : http.Request :=
  let h0 : http.Header := ∅ in
  let h1 := http.Add h0 "ApiKey" accessKey in
  let h2 := http.Add h1 "Request-Time" reqTime in
  let h3 := http.Add h2 "Signature" signature in
  let h4 := http.Add h3 "Content-Type" "application/json" in
  {| http.Method := "GET"; http.URL := fullURL; http.Hdr := h4 |}.

(** The verbs [%f] and [%.2f] of [fmt.Printf]: [strconv.AppendFloat] with
    6 and with 2 decimals; [fmt] keeps the sign of an infinity and drops
    no other character of these. *)
Definition fmt_f (v : float) : string := strconv.FormatFloat v 6.
Definition fmt_2f (v : float) : string := strconv.FormatFloat v 2.

(** Lines 100-111: the comparison and the line it prints, if any. *)
Definition report (symbol : string) (fairPrice holdAvgPrice : float) : option string :=
  if negb (fairPrice =? holdAvgPrice)%float then
    let difference := (fairPrice - holdAvgPrice)%float in
    let percentageDifference := ((difference / holdAvgPrice) * 100)%float in
    if (0 <? difference)%float then
      Some ("For " +:+ symbol +:+ ", FairPrice (" +:+ fmt_f fairPrice +:+
            ") is greater than HoldAvgPrice (" +:+ fmt_f holdAvgPrice +:+
            ") by: " +:+ fmt_f difference +:+ " (" +:+ fmt_2f percentageDifference +:+
            "%)" +:+ newline)
    else
      Some ("For " +:+ symbol +:+ ", HoldAvgPrice (" +:+ fmt_f holdAvgPrice +:+
            ") is greater than FairPrice (" +:+ fmt_f fairPrice +:+
            ") by: " +:+ fmt_f (- difference)%float +:+ " (" +:+
            fmt_2f (- percentageDifference)%float +:+ "%)" +:+ newline)
  else None.

(** [queryFairPriceForSymbol] (main.go, 63-112).  Closing the response
    body, deferred to the return, has no effect the trace records. *)
Definition queryFairPriceForSymbol (accessKey secretKey baseURL symbol : string)
    (holdAvgPrice : float) : M unit :=
  now ← time_Now;
  let reqTime := strconv.FormatInt (int64 (time.Unix now * 1000)) in
  let endpoint := "/api/v1/contract/fair_price/" +:+ symbol in
  let signature := sign accessKey secretKey reqTime "" in
  let fullURL := baseURL +:+ endpoint in
  match NewRequestErr w "GET" fullURL with
  | Some err =>
      fmt_Print ("Error creating request for symbol " +:+ symbol +:+ ": " +:+ err +:+ newline)
  | None =>
      let req := add_headers fullURL accessKey reqTime signature in
      response ← client_Do req;
      match response with
      | SendFailed err =>
          fmt_Print ("Error sending request for symbol " +:+ symbol +:+ ": " +:+ err +:+ newline)
      | ReadFailed err =>
          fmt_Print ("Error reading response body for symbol " +:+ symbol +:+ ": " +:+ err
                     +:+ newline)
      | Body body =>
          match UnmarshalFairPrice w body with
          | inl err =>
              fmt_Print ("Error decoding fair price response for " +:+ symbol +:+ ": " +:+ err
                         +:+ newline)
          | inr fairPrice =>
              match report symbol fairPrice holdAvgPrice with
              | Some line => fmt_Print line
              | None => mret tt
              end
          end
      end
  end.

(** The loop of lines 160-162. *)
Fixpoint forPositions (accessKey secretKey baseURL : string) (data : list Position) : M unit :=
  match data with
  | [] => mret tt
  | pos :: data' =>
      _ ← queryFairPriceForSymbol accessKey secretKey baseURL (Symbol pos) (HoldAvgPrice pos);
      forPositions accessKey secretKey baseURL data'
  end.

Definition baseURL : string := "https://contract.mexc.com".

(** [main] (main.go, 114-163). *)
Definition main : M unit :=
  let accessKey := Getenv w "MEXC_ACCESS_KEY" in
  let secretKey := Getenv w "MEXC_SECRET_KEY" in
  let params : gmap string string := ∅ in
  let paramStr := getRequestParamString params in
  now ← time_Now;
  let reqTime := strconv.FormatInt (int64 (time.Unix now * 1000)) in
  let signature := sign accessKey secretKey reqTime paramStr in
  let endpoint := "/api/v1/private/position/open_positions" in
  let fullURL := baseURL +:+ endpoint in
  match NewRequestErr w "GET" fullURL with
  | Some err => fmt_Print ("Error creating request: " +:+ err +:+ newline)
  | None =>
      let req := add_headers fullURL accessKey reqTime signature in
      response ← client_Do req;
      match response with
      | SendFailed err => fmt_Print ("Error sending request: " +:+ err +:+ newline)
      | ReadFailed err => fmt_Print ("Error reading response body: " +:+ err +:+ newline)
      | Body body =>
          match UnmarshalPositions w body with
          | inl err => fmt_Print ("Error decoding response JSON: " +:+ err +:+ newline)
          | inr data => forPositions accessKey secretKey baseURL data
          end
      end
  end.

End Reporter.

(** A run of the program starts with nothing read, sent or printed. *)
Definition start : State := {| reads := 0; sends := 0; trace := [] |}.

Definition run (w : World) : list event := trace (main w start).2.

(** * Properties *)

(** ** Facts about byte strings *)

#[local] Arguments String.append !_ _ / : simpl nomatch.

Section StringFacts.

Lemma append_nil_r (s : string) : s +:+ "" = s.
Proof. induction s as [|c s IH]; simpl; [done | by rewrite IH]. Qed.

Lemma append_assoc (a b c : string) : (a +:+ b) +:+ c = a +:+ (b +:+ c).
Proof. induction a as [|x a IH]; simpl; [done | by rewrite IH]. Qed.

Lemma length_append (a b : string) :
  String.length (a +:+ b) = String.length a + String.length b.
Proof. induction a as [|x a IH]; simpl; [done | by rewrite IH]. Qed.

Lemma substring_0_append (a b : string) :
  String.substring 0 (String.length a) (a +:+ b) = a.
Proof. induction a as [|x a IH]; simpl; [by destruct b | by rewrite IH]. Qed.

Lemma substring_skip_append (a b : string) :
  String.substring (String.length a) (String.length b) (a +:+ b) = b.
Proof.
  induction a as [|x a IH]; simpl; [|done].
  induction b as [|y b IHb]; simpl; [done | by rewrite IHb].
Qed.

Lemma HasSuffix_append (a suffix : string) :
  strings.HasSuffix (a +:+ suffix) suffix = true.
Proof.
  unfold strings.HasSuffix. rewrite length_append.
  replace (String.length a + String.length suffix - String.length suffix)
    with (String.length a) by lia.
  rewrite substring_skip_append, String.eqb_refl, andb_true_r.
  apply Nat.leb_le. lia.
Qed.

Lemma TrimSuffix_append (a suffix : string) :
  strings.TrimSuffix (a +:+ suffix) suffix = a.
Proof.
  unfold strings.TrimSuffix. rewrite HasSuffix_append, length_append.
  replace (String.length a + String.length suffix - String.length suffix)
    with (String.length a) by lia.
  apply substring_0_append.
Qed.

Lemma last_append (a b : string) :
  Bytes.last (a +:+ b) = match b with "" => Bytes.last a | _ => Bytes.last b end.
Proof.
  induction a as [|x a IH]; simpl.
  - by destruct b.
  - rewrite IH. destruct a as [|y a]; simpl; by destruct b.
Qed.

Lemma all_append (p : ascii → bool) (a b : string) :
  Bytes.all p (a +:+ b) = Bytes.all p a && Bytes.all p b.
Proof. induction a as [|x a IH]; simpl; [done | by rewrite IH, andb_assoc]. Qed.

Lemma all_last (p : ascii → bool) (s : string) (c : ascii) :
  Bytes.all p s = true → Bytes.last s = Some c → p c = true.
Proof.
  induction s as [|x s IH]; simpl; [done|].
  intros [Hx Hs]%andb_true_iff. destruct s as [|y s]; [naive_solver | by apply IH].
Qed.

Lemma all_concat_map (p : ascii → bool) (f : ascii → string) (s : string) :
  (∀ c, Bytes.all p (f c) = true) → Bytes.all p (Bytes.concat_map f s) = true.
Proof.
  intros Hf. induction s as [|x s IH]; simpl; [done|].
  by rewrite all_append, Hf, IH.
Qed.

End StringFacts.

(** ** Percent-encoding, as the specification words it

    The convention of the specification: an unreserved character (RFC
    3986: a letter, a digit, or one of [-_.~]) stands for itself, and
    every other byte, the space included, is written [%XY] with its two
    upper-case hexadecimal digits. *)

Definition unreserved (c : ascii) : bool :=
  Bytes.between "a" "z" c || Bytes.between "A" "Z" c || Bytes.between "0" "9" c
  || Ascii.eqb c "-" || Ascii.eqb c "_" || Ascii.eqb c "." || Ascii.eqb c "~".

Definition percent_byte (c : ascii) : string :=
  if unreserved c then String c ""
  else String "%" (String (url.hexdigit (Bytes.code c / 16)%N)
                  (String (url.hexdigit (Bytes.code c mod 16)%N) "")).

Definition percent_encode (s : string) : string :=
  Bytes.concat_map percent_byte s.

(** The bytes a percent-encoded string is made of. *)
Definition percent_alphabet (c : ascii) : bool :=
  unreserved c || Ascii.eqb c "%".

Section UrlEncode.

Ltac each_byte c :=
  destruct c as [[] [] [] [] [] [] [] []]; vm_compute; reflexivity.

Lemma replace_escape_byte (c : ascii) (rest : string) :
  strings.replace_from "+" "%20" 0 (url.escape_byte c +:+ rest)
  = percent_byte c +:+ strings.replace_from "+" "%20" 0 rest.
Proof.
  destruct c as [[] [] [] [] [] [] [] []]; destruct rest; reflexivity.
Qed.

Lemma urlEncode_percent_encode (s : string) : urlEncode s = percent_encode s.
Proof.
  unfold urlEncode, strings.ReplaceAll, url.QueryEscape, percent_encode.
  induction s as [|c s IH]; [done|].
  cbn [Bytes.concat_map]. by rewrite replace_escape_byte, IH.
Qed.

Lemma percent_byte_alphabet (c : ascii) :
  Bytes.all percent_alphabet (percent_byte c) = true.
Proof. each_byte c. Qed.

Lemma percent_alphabet_no_plus (c : ascii) :
  percent_alphabet c = true → c ≠ "+"%char ∧ c ≠ "&"%char ∧ c ≠ " "%char.
Proof. intros H. repeat split; intros ->; discriminate H. Qed.

Lemma urlEncode_alphabet (s : string) :
  Bytes.all percent_alphabet (urlEncode s) = true.
Proof.
  rewrite urlEncode_percent_encode.
  apply all_concat_map, percent_byte_alphabet.
Qed.

End UrlEncode.

(** ** The canonical parameter string *)

(** Strictly ascending in lexicographic byte order. *)
Definition byte_lt (a b : string) : Prop := String.ltb a b = true.

(** One [key=value] item of the canonical string. *)
Definition param_item (kv : string * string) : string :=
  kv.1 +:+ "=" +:+ urlEncode kv.2.

Section Canonical.

Implicit Types (params : gmap string string) (keys order : list string).

Lemma le_ne_byte_lt (a b : string) : String.le a b → a ≠ b → byte_lt a b.
Proof.
  unfold String.le, byte_lt, String.leb, String.ltb.
  destruct (String.compare a b) eqn:E; [|done..].
  by apply String.compare_eq_iff in E.
Qed.

Lemma sorted_nodup_strict keys :
  StronglySorted String.le keys → NoDup keys → StronglySorted byte_lt keys.
Proof.
  induction 1 as [|k keys Hs IH Hk]; intros Hnd; [constructor|].
  apply NoDup_cons in Hnd as [Hnotin Hnd].
  constructor; [by apply IH|].
  apply Forall_forall. intros x Hx.
  apply le_ne_byte_lt; [by eapply Forall_forall in Hk | set_solver].
Qed.

Lemma Strings_sorted keys : StronglySorted String.le (sort.Strings keys).
Proof. apply StronglySorted_merge_sort; apply _. Qed.

Lemma Strings_perm keys : sort.Strings keys ≡ₚ keys.
Proof. apply merge_sort_Permutation. Qed.

(** Sorting forgets the order the keys were visited in. *)
Lemma Strings_order keys keys' :
  keys ≡ₚ keys' → sort.Strings keys = sort.Strings keys'.
Proof.
  intros Hp. apply (StronglySorted_unique String.le); try apply Strings_sorted.
  by rewrite !Strings_perm.
Qed.

(** The builder loop, from an accumulator. *)
Lemma builder_loop (f : string → string) keys (acc : string) :
  fold_left (fun b k => b +:+ (f k +:+ "&")) keys acc
  = acc +:+ match keys with
            | [] => ""
            | _ => String.concat "&" (f <$> keys) +:+ "&"
            end.
Proof.
  revert acc. induction keys as [|k keys IH]; intros acc; simpl.
  - by rewrite append_nil_r.
  - rewrite IH. destruct keys as [|k' keys]; simpl.
    + by rewrite append_nil_r.
    + by rewrite !append_assoc.
Qed.

Lemma param_items params keys :
  keys ≡ₚ (map_to_list params).*1 →
  (λ k, (k, index_map params k)) <$> keys ≡ₚ map_to_list params.
Proof.
  intros ->. rewrite <- list_fmap_compose.
  rewrite <- (list_fmap_id (map_to_list params)) at 2.
  apply reflexive_eq, Forall_fmap_ext_1, Forall_forall.
  intros [k v] Hkv%elem_of_map_to_list. unfold index_map. simpl. by rewrite Hkv.
Qed.

End Canonical.

Section CanonicalClaims.

Implicit Types (params : gmap string string) (keys order : list string).

Lemma getRequestParamString_in_sorted params order :
  getRequestParamString_in order params
  = String.concat "&"
      (param_item <$> ((λ k, (k, index_map params k)) <$> sort.Strings order)).
Proof.
  unfold getRequestParamString_in.
  rewrite (builder_loop (λ k, k +:+ "=" +:+ urlEncode (index_map params k))).
  rewrite <- list_fmap_compose. simpl.
  destruct (sort.Strings order) as [|k keys]; [done|].
  change ("" +:+ ?x) with x. by rewrite TrimSuffix_append.
Qed.

Lemma last_cons_some (x : ascii) (s : string) : ∃ c, Bytes.last (String x s) = Some c.
Proof. revert x. induction s as [|y s IH]; intros x; simpl; eauto. Qed.

Lemma param_item_last (kv : string * string) :
  ∃ c, Bytes.last (param_item kv) = Some c ∧ c ≠ "&"%char.
Proof.
  assert (Bytes.last (param_item kv)
          = match urlEncode kv.2 with "" => Some "="%char | enc => Bytes.last enc end) as ->.
  { unfold param_item. rewrite last_append. simpl.
    by destruct (urlEncode kv.2). }
  pose proof (urlEncode_alphabet kv.2) as Hall.
  destruct (urlEncode kv.2) as [|x enc]; [by exists "="%char|].
  destruct (last_cons_some x enc) as [c Hc]. exists c. split; [done|].
  by apply (all_last _ _ _ Hall), percent_alphabet_no_plus in Hc as (_ & ? & _).
Qed.

Lemma canonical_last (kvs : list (string * string)) :
  Bytes.last (String.concat "&" (param_item <$> kvs)) ≠ Some "&"%char.
Proof.
  assert (∀ kv kvs, ∃ c,
    Bytes.last (String.concat "&" (param_item <$> kv :: kvs)) = Some c ∧ c ≠ "&"%char)
    as Hne.
  { clear. intros kv kvs. revert kv.
    induction kvs as [|kv' kvs IH]; intros kv.
    - apply param_item_last.
    - destruct (IH kv') as (c & Hc & Hamp). exists c. split; [|done].
      change (String.concat "&" (param_item <$> kv :: kv' :: kvs))
        with (param_item kv +:+ "&" +:+ String.concat "&" (param_item <$> kv' :: kvs)).
      remember (String.concat "&" (param_item <$> kv' :: kvs)) as joined.
      rewrite last_append. change ("&" +:+ joined) with (String "&" joined).
      by destruct joined. }
  destruct kvs as [|kv kvs]; [done|].
  destruct (Hne kv kvs) as (c & -> & Hamp). congruence.
Qed.

End CanonicalClaims.

(** C2. For every parameter mapping, whatever order the keys are visited
    in, the canonical string is the list of [key=value] items of the
    mapping in strictly ascending lexicographic byte order of the keys,
    joined by [&]; it does not end in [&]; it is the same for every
    visiting order; and the empty mapping gives the empty string. *)
Theorem getRequestParamString_canonical (params : gmap string string) (order : list string) :
  range_order params order →
  (∃ kvs : list (string * string),
      kvs ≡ₚ map_to_list params ∧
      StronglySorted byte_lt kvs.*1 ∧
      getRequestParamString_in order params = String.concat "&" (param_item <$> kvs)) ∧
  Bytes.last (getRequestParamString_in order params) ≠ Some "&"%char ∧
  (∀ order', range_order params order' →
     getRequestParamString_in order' params = getRequestParamString_in order params) ∧
  (params = ∅ → getRequestParamString_in order params = "").
Proof.
  unfold range_order. intros Horder.
  assert (sort.Strings order ≡ₚ (map_to_list params).*1) as Hkeys
    by (by rewrite Strings_perm).
  repeat split.
  - exists ((λ k, (k, index_map params k)) <$> sort.Strings order).
    split; [by apply param_items|]. split; [|apply getRequestParamString_in_sorted].
    rewrite <- list_fmap_compose, list_fmap_id.
    apply sorted_nodup_strict; [apply Strings_sorted|].
    rewrite Hkeys. apply NoDup_fst_map_to_list.
  - rewrite getRequestParamString_in_sorted. apply canonical_last.
  - intros order' Horder'. rewrite !getRequestParamString_in_sorted.
    by rewrite (Strings_order order' order) by (by rewrite Horder, Horder').
  - intros ->. rewrite map_to_list_empty in Horder.
    by apply Permutation_nil_r in Horder as ->.
Qed.

Lemma getRequestParamString_canonical_witness :
  (∃ kvs : list (string * string),
      kvs ≡ₚ map_to_list ({[ "a" := "x y"; "b" := "1" ]} : gmap string string) ∧
      StronglySorted byte_lt kvs.*1 ∧
      getRequestParamString_in ["b"; "a"] {[ "a" := "x y"; "b" := "1" ]}
      = String.concat "&" (param_item <$> kvs)) ∧
  Bytes.last (getRequestParamString_in ["b"; "a"] {[ "a" := "x y"; "b" := "1" ]})
  ≠ Some "&"%char ∧
  (∀ order', range_order {[ "a" := "x y"; "b" := "1" ]} order' →
     getRequestParamString_in order' {[ "a" := "x y"; "b" := "1" ]}
     = getRequestParamString_in ["b"; "a"] {[ "a" := "x y"; "b" := "1" ]}) ∧
  (({[ "a" := "x y"; "b" := "1" ]} : gmap string string) = ∅ →
   getRequestParamString_in ["b"; "a"] {[ "a" := "x y"; "b" := "1" ]} = "").
Proof.
  apply (getRequestParamString_canonical {[ "a" := "x y"; "b" := "1" ]} ["b"; "a"]).
  unfold range_order. vm_compute. apply perm_swap.
Defined.

(** C3. Every value is percent-encoded: unreserved characters stand for
    themselves and every other byte, the space included, becomes [%XY];
    no [+] is ever produced, a space gives [%20], and the mapping
    [{"a": "x y"}] canonicalizes to [a=x%20y]. *)
Theorem urlEncode_percent (v : string) :
  urlEncode v = percent_encode v ∧
  percent_byte " " = "%20" ∧
  Bytes.all (λ c, negb (Ascii.eqb c "+")) (urlEncode v) = true ∧
  (∀ k order, range_order {[ k := v ]} order →
     getRequestParamString_in order {[ k := v ]} = k +:+ "=" +:+ percent_encode v) ∧
  (∀ order, range_order {[ "a" := "x y" ]} order →
     getRequestParamString_in order {[ "a" := "x y" ]} = "a=x%20y").
Proof.
  assert (∀ k w order, range_order {[ k := w ]} order →
    getRequestParamString_in order {[ k := w ]} = k +:+ "=" +:+ percent_encode w) as Hone.
  { intros k w order Horder. unfold range_order in Horder.
    rewrite map_to_list_singleton in Horder. apply Permutation_singleton_r in Horder as ->.
    rewrite getRequestParamString_in_sorted. unfold index_map. cbn.
    by rewrite lookup_singleton_eq, <- urlEncode_percent_encode. }
  split; [apply urlEncode_percent_encode|]. split; [done|]. split; [|split].
  - pose proof (urlEncode_alphabet v) as Hall. revert Hall.
    generalize (urlEncode v). intros s. induction s as [|c s IH]; [done|].
    simpl. intros [Hc Hs]%andb_true_iff. rewrite (IH Hs), andb_true_r.
    apply percent_alphabet_no_plus in Hc as (Hplus & _).
    apply negb_true_iff. by apply Ascii.eqb_neq.
  - intros k order. apply Hone.
  - intros order Horder. by rewrite (Hone _ _ _ Horder).
Qed.

(** ** The streaming digest computes SHA-256 of what was written *)

Section Sha256Facts.

Import sha256.

Implicit Types (p q msg : list ascii) (r : regs) (d : digest).

Lemma block_loop_S (fuel : nat) r p :
  block_loop (S fuel) r p
  = if Nat.leb 64 (length p)
    then block_loop fuel (block1 r (take 64 p)) (drop 64 p)
    else r.
Proof. reflexivity. Qed.

Lemma block_loop_fuel (fuel1 fuel2 : nat) r p :
  length p ≤ fuel1 → length p ≤ fuel2 →
  block_loop fuel1 r p = block_loop fuel2 r p.
Proof.
  revert fuel2 r p. induction fuel1 as [|fuel1 IH]; intros fuel2 r p H1 H2.
  - destruct p; [|simpl in H1; lia]. by destruct fuel2.
  - rewrite block_loop_S. destruct (Nat.leb_spec 64 (length p)) as [Hlen|Hlen].
    + destruct fuel2 as [|fuel2]; [lia|]. rewrite block_loop_S.
      destruct (Nat.leb_spec 64 (length p)); [|lia].
      apply IH; rewrite length_drop; lia.
    + destruct fuel2 as [|fuel2]; [done|]. rewrite block_loop_S.
      by destruct (Nat.leb_spec 64 (length p)); [lia|].
Qed.

Lemma block_short r p : length p < 64 → block r p = r.
Proof.
  unfold block. intros Hlen. destruct (length p) eqn:E; [done|].
  rewrite block_loop_S, E. by destruct (Nat.leb_spec 64 (S n)); [lia|].
Qed.

Lemma block_chunk r p :
  64 ≤ length p → block r p = block (block1 r (take 64 p)) (drop 64 p).
Proof.
  unfold block. intros Hlen. destruct (length p) eqn:E; [lia|].
  rewrite block_loop_S, E. destruct (Nat.leb_spec 64 (S n)); [|lia].
  apply block_loop_fuel; rewrite length_drop; lia.
Qed.

(** Whole chunks can be hashed in one call or in two. *)
Lemma block_app (k : nat) r p q :
  length p = 64 * k → block r (p ++ q) = block (block r p) q.
Proof.
  revert r p. induction k as [|k IH]; intros r p Hlen.
  - destruct p; [|simpl in Hlen; lia]. by rewrite (block_short r []) by (simpl; lia).
  - rewrite (block_chunk r (p ++ q)) by (rewrite length_app; lia).
    rewrite (block_chunk r p) by lia.
    rewrite take_app_le, drop_app_le by lia.
    apply IH. rewrite length_drop. lia.
Qed.

(** The bytes after the last whole chunk are not hashed. *)
Lemma block_whole (k : nat) r p q :
  length p = 64 * k → length q < 64 → block r (p ++ q) = block r p.
Proof. intros Hp Hq. by rewrite (block_app k), (block_short _ q). Qed.

Lemma whole_chunks (n : nat) : ∃ k, n / 64 * 64 = 64 * k ∧ n / 64 * 64 ≤ n < n / 64 * 64 + 64.
Proof.
  exists (n / 64). pose proof (Nat.div_mod_eq n 64).
  pose proof (Nat.mod_upper_bound n 64). lia.
Qed.

Lemma whole_chunks_add (n : nat) : (64 + n) / 64 * 64 = 64 + n / 64 * 64.
Proof.
  replace (64 + n) with (1 * 64 + n) by lia. rewrite Nat.div_add_l by lia. lia.
Qed.

(** [Write] in one step: the buffered and the new bytes are cut after
    their last whole chunk; the chunks are hashed, the rest is buffered. *)
Lemma Write_cut d p :
  length (x d) < 64 →
  Write d p
  = Digest (block (h d) (take (length (x d ++ p) / 64 * 64) (x d ++ p)))
           (drop (length (x d ++ p) / 64 * 64) (x d ++ p))
           ((len d + Z.of_nat (length p)) mod 2 ^ 64)%Z.
Proof.
  intros Hx. unfold Write.
  assert (∀ r (x1 p1 : list ascii), x1 = [] →
    (let '(h2, p2) :=
       if Nat.leb 64 (length p1)
       then (block r (take (length p1 / 64 * 64) p1), drop (length p1 / 64 * 64) p1)
       else (r, p1) in
     Digest h2 (if Nat.ltb 0 (length p2) then p2 else x1)
            ((len d + Z.of_nat (length p)) mod 2 ^ 64)%Z)
    = Digest (block r (take (length p1 / 64 * 64) p1)) (drop (length p1 / 64 * 64) p1)
             ((len d + Z.of_nat (length p)) mod 2 ^ 64)%Z) as Hrest.
  { intros r x1 p1 ->. destruct (whole_chunks (length p1)) as (k & Hk & Hlo & Hhi).
    destruct (Nat.leb_spec 64 (length p1)) as [Hlen|Hlen].
    - by destruct (drop (length p1 / 64 * 64) p1).
    - assert (length p1 / 64 * 64 = 0) as -> by (rewrite Nat.div_small; lia).
      rewrite take_0, drop_0, block_short by (simpl; lia). by destruct p1. }
  destruct (Nat.ltb_spec 0 (length (x d))) as [Hnx|Hnx].
  - cbv zeta. set (n := Nat.min (64 - length (x d)) (length p)).
    match goal with |- context [Nat.eqb ?a ?b] => destruct (Nat.eqb_spec a b) as [Hfull|Hpart] end.
    + rewrite Hrest by done.
      assert (x d ++ p = (x d ++ take n p) ++ drop n p) as ->
        by (by rewrite <- (assoc_L (++)), take_drop).
      rewrite length_app, Hfull, whole_chunks_add. f_equal.
      * rewrite <- (block_app 1) by lia. f_equal.
        by rewrite take_app_ge, Hfull, Nat.add_comm, Nat.add_sub by lia.
      * by rewrite drop_app_ge, Hfull, Nat.add_comm, Nat.add_sub by lia.
    + rewrite length_app, length_take in Hpart.
      assert (length (x d) + length p < 64) as Hsmall by (unfold n in Hpart; lia).
      assert (n = length p) as Hn by (unfold n; lia).
      assert (length (x d ++ p) / 64 * 64 = 0) as ->
        by (rewrite length_app, Nat.div_small; lia).
      rewrite take_0, drop_0, (block_short (h d) []) by (simpl; lia).
      by rewrite Hn, (take_ge p (length p)), (drop_ge p (length p)) by lia.
  - assert (x d = []) as -> by (destruct (x d); [done | simpl in Hnx; lia]).
    by rewrite Hrest.
Qed.

(** The digest has absorbed [msg]: its whole chunks are hashed, the rest
    is in the buffer, and [len] counts the bytes. *)
Definition absorbed (d : digest) (msg : list ascii) : Prop :=
  ∃ (k : nat) (whole : list ascii),
    msg = whole ++ x d ∧ length whole = 64 * k ∧ length (x d) < 64 ∧
    h d = block init whole ∧ len d = (Z.of_nat (length msg) mod 2 ^ 64)%Z.

Lemma absorbed_New : absorbed New [].
Proof. exists 0, []. repeat split; simpl; lia. Qed.

Lemma absorbed_Reset d : absorbed (Reset d) [].
Proof. exists 0, []. repeat split; simpl; lia. Qed.

Lemma absorbed_Write d msg p : absorbed d msg → absorbed (Write d p) (msg ++ p).
Proof.
  intros (k & whole & -> & Hwhole & Hx & Hh & Hlen).
  rewrite Write_cut by done.
  destruct (whole_chunks (length (x d ++ p))) as (k' & Hk' & Hlo & Hhi).
  exists (k + k'), (whole ++ take (length (x d ++ p) / 64 * 64) (x d ++ p)).
  cbn [h x len]. repeat split.
  - by rewrite <- !(assoc_L (++)), take_drop.
  - rewrite length_app, length_take. lia.
  - rewrite length_drop. lia.
  - by rewrite (block_app k), Hh.
  - rewrite Hlen, (length_app (whole ++ x d) p), Nat2Z.inj_add.
    by rewrite Zplus_mod_idemp_l.
Qed.

Lemma length_be_bytes (n : nat) (v : Z) : length (be_bytes n v) = n.
Proof. unfold be_bytes. by rewrite length_map, length_seq. Qed.

Lemma length_digest_bytes r : length (digest_bytes r) = 32.
Proof. unfold digest_bytes. by rewrite !length_app, !length_be_bytes. Qed.

(** The padded message is a whole number of chunks. *)
Lemma length_padded msg :
  ∃ k, length (msg ++ padding (Z.of_nat (length msg) mod 2 ^ 64)) = 64 * k.
Proof.
  unfold padding. set (n := length msg).
  assert ((Z.of_nat n mod 2 ^ 64) mod 64 = Z.of_nat n mod 64)%Z as ->.
  { apply Z.mod_mod_divide. by exists (2 ^ 58)%Z. }
  pose proof (Z.mod_pos_bound (Z.of_nat n) 64 ltac:(lia)) as Hm.
  pose proof (Z.div_mod (Z.of_nat n) 64 ltac:(lia)) as Hd.
  rewrite length_app. cbn [length]. rewrite length_app, repeat_length, length_be_bytes.
  destruct (Z.ltb_spec (Z.of_nat n mod 64) 56).
  - exists (Z.to_nat (Z.of_nat n / 64 + 1)). lia.
  - exists (Z.to_nat (Z.of_nat n / 64 + 2)). lia.
Qed.

(** Writing the padding leaves the buffer empty, so [checkSum] never
    panics. *)
Lemma Write_padding_flushes d msg :
  absorbed d msg →
  x (Write d (padding (len d))) = [] ∧
  h (Write d (padding (len d)))
  = block init (msg ++ padding (Z.of_nat (length msg) mod 2 ^ 64)).
Proof.
  intros Habs. pose proof Habs as (_ & _ & _ & _ & _ & _ & Hlen).
  apply (absorbed_Write _ _ (padding (len d))) in Habs
    as (k & whole & Hmsg & Hwhole & Hx & Hh & _).
  rewrite Hlen in *. destruct (length_padded msg) as [j Hj].
  rewrite Hmsg, length_app in Hj.
  destruct (x (Write d _)) as [|c rest] eqn:Ex.
  - by rewrite Hmsg, app_nil_r.
  - exfalso. simpl in Hx, Hj. lia.
Qed.

Lemma checkSum_Sum256 d msg : absorbed d msg → checkSum d = Sum256 msg.
Proof.
  intros Habs. unfold checkSum, Sum256.
  by destruct (Write_padding_flushes d msg Habs) as [_ ->].
Qed.

Lemma length_Sum256 msg : length (Sum256 msg) = 32.
Proof. apply length_digest_bytes. Qed.

End Sha256Facts.

(** ** [sign] is HMAC-SHA256 in lowercase hexadecimal *)

(** HMAC (RFC 2104) with SHA-256: [H((K0 xor opad) || H((K0 xor ipad) || text))],
    [K0] the key, hashed first if longer than a block, padded with zeros
    to the block size. *)
Definition HMAC_SHA256 (key text : list ascii) : list ascii :=
  let k := if Nat.ltb 64 (length key) then sha256.Sum256 key else key in
  let k0 := k ++ repeat Ascii.zero (64 - length k) in
  sha256.Sum256 (map (hmac.xor_byte 0x5c) k0 ++
                 sha256.Sum256 (map (hmac.xor_byte 0x36) k0 ++ text)).

(** Lowercase hexadecimal, as the specification words it: two digits per
    byte, the high one first, from [0-9a-f]. *)
Definition hex_char (n : N) : ascii :=
  if (n <? 10)%N then ascii_of_N (N_of_ascii "0" + n) else ascii_of_N (N_of_ascii "a" + (n - 10)).

Definition lower_hex (bs : list ascii) : string :=
  string_of_list_ascii
    (flat_map (λ b, [hex_char (Bytes.code b / 16); hex_char (Bytes.code b mod 16)]) bs).

Definition lower_hex_digit (c : ascii) : bool :=
  Bytes.between "0" "9" c || Bytes.between "a" "f" c.

Section Sign.

Implicit Types (key text msg b : list ascii).

Lemma sha256_Sum_absorbed (d : sha256.digest) msg b :
  absorbed d msg → sha256.Sum d b = b ++ sha256.Sum256 msg.
Proof. intros Habs. unfold sha256.Sum. by rewrite (checkSum_Sum256 d msg). Qed.

Lemma drop_repeat_zero (n m : nat) : drop n (repeat Ascii.zero m) = repeat Ascii.zero (m - n).
Proof.
  revert m. induction n as [|n IH]; intros [|m]; simpl; done.
Qed.

Lemma copy_key key :
  length key ≤ 64 → hmac.copy (repeat Ascii.zero 64) key = key ++ repeat Ascii.zero (64 - length key).
Proof.
  intros Hlen. unfold hmac.copy. rewrite repeat_length.
  rewrite Nat.min_r by done. by rewrite take_ge, drop_repeat_zero.
Qed.

(** The object once the pads are set, whatever the outer digest holds. *)
Lemma hmac_padded (k text : list ascii) (o : hash.state sha256_Hash) :
  length k ≤ 64 →
  hmac.Sum
    (hmac.Write
       (H := sha256_Hash)
       (hmac.Hmac (H := sha256_Hash)
                  (map (hmac.xor_byte 92) (hmac.copy (repeat Ascii.zero 64) k))
                  (map (hmac.xor_byte 54) (hmac.copy (repeat Ascii.zero 64) k))
                  o
                  (sha256.Write sha256.New
                     (map (hmac.xor_byte 54) (hmac.copy (repeat Ascii.zero 64) k))))
       text) []
  = sha256.Sum256
      (map (hmac.xor_byte 92) (k ++ repeat Ascii.zero (64 - length k)) ++
       sha256.Sum256 (map (hmac.xor_byte 54) (k ++ repeat Ascii.zero (64 - length k)) ++ text)).
Proof.
  intros Hk. unfold hmac.Write, hmac.Sum.
  cbn [hash.New hash.Write hash.Sum hash.Reset sha256_Hash
       hmac.opad hmac.ipad hmac.outer hmac.inner length].
  rewrite copy_key by done.
  set (ipad := map (hmac.xor_byte 54) _). set (opad := map (hmac.xor_byte 92) _).
  assert (absorbed (sha256.Write (sha256.Write sha256.New ipad) text) (ipad ++ text))
    as Hinner by apply absorbed_Write, (absorbed_Write _ []), absorbed_New.
  rewrite (sha256_Sum_absorbed _ _ [] Hinner). cbn [app take drop].
  apply (sha256_Sum_absorbed _ _ []).
  apply absorbed_Write, (absorbed_Write _ []), absorbed_Reset.
Qed.

(** The [hmac] object built on [sha256.New] computes HMAC-SHA256. *)
Lemma hmac_sha256 key text :
  hmac.Sum (hmac.Write (hmac.New sha256_Hash key) text) [] = HMAC_SHA256 key text.
Proof.
  unfold hmac.New, HMAC_SHA256.
  cbn [hash.New hash.Write hash.Sum hash.Reset hash.BlockSize sha256_Hash].
  unfold sha256.BlockSize.
  destruct (Nat.ltb_spec 64 (length key)) as [Hlong|Hshort]; cbv zeta iota beta.
  - rewrite (sha256_Sum_absorbed _ key)
      by apply (absorbed_Write _ []), absorbed_New.
    cbn [app]. apply hmac_padded. rewrite length_Sum256. lia.
  - by apply hmac_padded.
Qed.

Lemma EncodeToString_lower_hex b : hex.EncodeToString b = lower_hex b.
Proof.
  unfold lower_hex. induction b as [|v b IH]; [done|].
  cbn [hex.EncodeToString flat_map app string_of_list_ascii]. rewrite IH.
  f_equal; [|f_equal]; by destruct v as [[] [] [] [] [] [] [] []].
Qed.

Lemma EncodeToString_digits b :
  Bytes.all lower_hex_digit (hex.EncodeToString b) = true.
Proof.
  induction b as [|v b IH]; [done|].
  cbn [hex.EncodeToString Bytes.all]. rewrite IH, andb_true_r.
  by destruct v as [[] [] [] [] [] [] [] []].
Qed.

Lemma length_EncodeToString b : String.length (hex.EncodeToString b) = 2 * length b.
Proof. induction b as [|v b IH]; [done|]. cbn [hex.EncodeToString String.length length]. lia. Qed.

End Sign.

(** C1. [sign] returns the lowercase hexadecimal encoding of the
    HMAC-SHA256 digest, keyed with [secretKey], of the concatenation
    [accessKey || reqTime || paramStr]; the result is 64 hexadecimal
    digits, and equal inputs give equal results. *)
Theorem sign_hmac_sha256 (accessKey secretKey reqTime paramStr : string) :
  sign accessKey secretKey reqTime paramStr
  = lower_hex (HMAC_SHA256 (list_ascii_of_string secretKey)
                 (list_ascii_of_string (accessKey +:+ reqTime +:+ paramStr))) ∧
  String.length (sign accessKey secretKey reqTime paramStr) = 64 ∧
  Bytes.all lower_hex_digit (sign accessKey secretKey reqTime paramStr) = true ∧
  (∀ accessKey' secretKey' reqTime' paramStr',
     (accessKey', secretKey', reqTime', paramStr') = (accessKey, secretKey, reqTime, paramStr) →
     sign accessKey' secretKey' reqTime' paramStr' = sign accessKey secretKey reqTime paramStr).
Proof.
  assert (sign accessKey secretKey reqTime paramStr
    = hex.EncodeToString (HMAC_SHA256 (list_ascii_of_string secretKey)
        (list_ascii_of_string (accessKey +:+ reqTime +:+ paramStr)))) as Hsign.
  { unfold sign. by rewrite hmac_sha256, append_assoc. }
  split; [|split; [|split]].
  - by rewrite Hsign, EncodeToString_lower_hex.
  - rewrite Hsign, length_EncodeToString. unfold HMAC_SHA256.
    by rewrite length_Sum256.
  - rewrite Hsign. apply EncodeToString_digits.
  - by intros ???? [= -> -> -> ->].
Qed.

(** ** What a run of the reporter does *)

(** What becomes of one request in the world, [sends] requests after the
    start: the four ways it can fail, or the decoded answer. *)
Inductive fetch (A : Type) :=
| NotBuilt (err : string)
| NotSent (err : string)
| NotRead (err : string)
| NotDecoded (err : string)
| Fetched (a : A).
#[global] Arguments NotBuilt {A}.
#[global] Arguments NotSent {A}.
#[global] Arguments NotRead {A}.
#[global] Arguments NotDecoded {A}.
#[global] Arguments Fetched {A}.

Definition fetch_result {A : Type} (w : World) (decode : string → string + A)
    (sends : nat) (req : http.Request) : fetch A :=
  match NewRequestErr w (http.Method req) (http.URL req) with
  | Some err => NotBuilt err
  | None =>
      match RoundTrip w sends req with
      | SendFailed err => NotSent err
      | ReadFailed err => NotRead err
      | Body body =>
          match decode body with
          | inl err => NotDecoded err
          | inr a => Fetched a
          end
      end
  end.

Definition failed {A : Type} (r : fetch A) : Prop :=
  match r with
  | Fetched _ => False
  | _ => True
  end.

(** The timestamp both call sites compute from a clock reading. *)
Definition timestamp (t : time.Time) : string :=
  strconv.FormatInt (int64 (time.Unix t * 1000)).

Definition accessKey (w : World) : string := Getenv w "MEXC_ACCESS_KEY".
Definition secretKey (w : World) : string := Getenv w "MEXC_SECRET_KEY".

(** The signed request for [url], stamped with the clock reading [t]. *)
Definition signed_request (ak sk url : string) (t : time.Time) : http.Request :=
  add_headers url ak (timestamp t) (sign ak sk (timestamp t) "").

Definition positions_url : string :=
  "https://contract.mexc.com/api/v1/private/position/open_positions".

Definition fair_price_url (base symbol : string) : string :=
  base +:+ "/api/v1/contract/fair_price/" +:+ symbol.

(** The diagnostic of a failed fair-price fetch. *)
Definition fair_price_diagnostic {A : Type} (symbol : string) (r : fetch A) : string :=
  match r with
  | NotBuilt err => "Error creating request for symbol " +:+ symbol +:+ ": " +:+ err +:+ newline
  | NotSent err => "Error sending request for symbol " +:+ symbol +:+ ": " +:+ err +:+ newline
  | NotRead err =>
      "Error reading response body for symbol " +:+ symbol +:+ ": " +:+ err +:+ newline
  | NotDecoded err =>
      "Error decoding fair price response for " +:+ symbol +:+ ": " +:+ err +:+ newline
  | Fetched _ => ""
  end.

(** The diagnostic of a failed open-positions fetch. *)
Definition positions_diagnostic {A : Type} (r : fetch A) : string :=
  match r with
  | NotBuilt err => "Error creating request: " +:+ err +:+ newline
  | NotSent err => "Error sending request: " +:+ err +:+ newline
  | NotRead err => "Error reading response body: " +:+ err +:+ newline
  | NotDecoded err => "Error decoding response JSON: " +:+ err +:+ newline
  | Fetched _ => ""
  end.

(** The events of one call of [queryFairPriceForSymbol], [reads] clock
    readings and [sends] requests after the start. *)
Definition query_events (w : World) (ak sk base : string) (reads sends : nat)
    (pos : Position) : list event :=
  let t := Clock w reads in
  let req := signed_request ak sk (fair_price_url base (Symbol pos)) t in
  let r := fetch_result w (UnmarshalFairPrice w) sends req in
  Now t ::
  match r with
  | NotBuilt _ => [Stdout (fair_price_diagnostic (Symbol pos) r)]
  | NotSent _ | NotRead _ | NotDecoded _ =>
      [Do req; Stdout (fair_price_diagnostic (Symbol pos) r)]
  | Fetched fairPrice =>
      Do req ::
      match report (Symbol pos) fairPrice (HoldAvgPrice pos) with
      | Some line => [Stdout line]
      | None => []
      end
  end.

(** The requests one call hands to the client: none if the request could
    not be built. *)
Definition query_sends (w : World) (base : string) (pos : Position) : nat :=
  match NewRequestErr w "GET" (fair_price_url base (Symbol pos)) with
  | Some _ => 0
  | None => 1
  end.

Fixpoint loop_events (w : World) (ak sk base : string) (reads sends : nat)
    (data : list Position) : list event :=
  match data with
  | [] => []
  | pos :: data' =>
      query_events w ak sk base reads sends pos ++
      loop_events w ak sk base (S reads) (sends + query_sends w base pos) data'
  end.

Fixpoint loop_sends (w : World) (base : string) (data : list Position) : nat :=
  match data with
  | [] => 0
  | pos :: data' => query_sends w base pos + loop_sends w base data'
  end.

Section Runs.

Variable w : World.
Implicit Types (s : State) (pos : Position) (data : list Position).

Lemma queryFairPriceForSymbol_run ak sk base pos s :
  queryFairPriceForSymbol w ak sk base (Symbol pos) (HoldAvgPrice pos) s
  = (tt, {| reads := S (reads s);
            sends := sends s + query_sends w base pos;
            trace := trace s ++ query_events w ak sk base (reads s) (sends s) pos |}).
Proof.
  unfold queryFairPriceForSymbol, query_events, query_sends, fetch_result,
    signed_request, fair_price_url, timestamp, mbind, M_bind, time_Now.
  cbn [reads sends trace add_headers http.Method http.URL].
  destruct (NewRequestErr w "GET" _) as [err|].
  - unfold fmt_Print. cbn [reads sends trace].
    by rewrite Nat.add_0_r, <- (assoc_L (++)).
  - unfold client_Do. cbn [reads sends trace]. rewrite Nat.add_1_r.
    destruct (RoundTrip w (sends s) _) as [err|err|body];
      [unfold fmt_Print; cbn [reads sends trace]; by rewrite <- !(assoc_L (++)).. |].
    destruct (UnmarshalFairPrice w body) as [err|fairPrice];
      [unfold fmt_Print; cbn [reads sends trace]; by rewrite <- !(assoc_L (++))|].
    destruct (report _ _ _); unfold fmt_Print, mret, M_ret;
      cbn [reads sends trace]; by rewrite <- !(assoc_L (++)).
Qed.

Lemma forPositions_run ak sk base data s :
  forPositions w ak sk base data s
  = (tt, {| reads := reads s + length data;
            sends := sends s + loop_sends w base data;
            trace := trace s ++ loop_events w ak sk base (reads s) (sends s) data |}).
Proof.
  revert s. induction data as [|pos data IH]; intros s.
  - cbn [forPositions loop_events loop_sends length]. unfold mret, M_ret.
    rewrite !Nat.add_0_r, app_nil_r. by destruct s.
  - cbn [forPositions]. unfold mbind, M_bind.
    rewrite queryFairPriceForSymbol_run, IH.
    cbn [reads sends trace loop_events loop_sends length].
    f_equal. f_equal; [lia | lia | by rewrite <- (assoc_L (++))].
Qed.

(** The events of a whole run. *)
Definition main_events : list event :=
  let t := Clock w 0 in
  let req := signed_request (accessKey w) (secretKey w) positions_url t in
  let r := fetch_result w (UnmarshalPositions w) 0 req in
  Now t ::
  match r with
  | NotBuilt _ => [Stdout (positions_diagnostic r)]
  | NotSent _ | NotRead _ | NotDecoded _ => [Do req; Stdout (positions_diagnostic r)]
  | Fetched data =>
      Do req :: loop_events w (accessKey w) (secretKey w) baseURL 1 1 data
  end.

Lemma empty_params_string : getRequestParamString ∅ = "".
Proof. reflexivity. Qed.

Lemma run_main_events : run w = main_events.
Proof.
  unfold run, main, main_events, fetch_result, signed_request, timestamp,
    mbind, M_bind, time_Now, start.
  rewrite empty_params_string.
  change (baseURL +:+ "/api/v1/private/position/open_positions") with positions_url.
  fold (accessKey w) (secretKey w).
  cbn [reads sends trace add_headers http.Method http.URL app].
  destruct (NewRequestErr w "GET" positions_url) as [err|]; [done|].
  unfold client_Do. cbn [reads sends trace app].
  destruct (RoundTrip w 0 _) as [err|err|body]; [done..|].
  destruct (UnmarshalPositions w body) as [err|data]; [done|].
  by rewrite forPositions_run.
Qed.

End Runs.

(** ** Requests and their headers *)

(** The headers of a request stamped with the clock reading [t], when
    [stamp] turns a reading into the timestamp string. *)
Definition auth_headers (stamp : time.Time → string) (ak sk : string)
    (t : time.Time) : http.Header :=
  {[ "Apikey" := [ak];
     "Request-Time" := [stamp t];
     "Signature" := [sign ak sk (stamp t) ""];
     "Content-Type" := ["application/json"] ]}.

(** Every request of the trace comes right after a clock reading of its
    own and carries the headers for that reading. *)
Fixpoint stamped (stamp : time.Time → string) (ak sk : string)
    (reading : option time.Time) (tr : list event) : Prop :=
  match tr with
  | [] => True
  | Now t :: tr' => stamped stamp ak sk (Some t) tr'
  | Do req :: tr' =>
      (∃ t, reading = Some t ∧ http.Hdr req = auth_headers stamp ak sk t) ∧
      stamped stamp ak sk None tr'
  | Stdout _ :: tr' => stamped stamp ak sk None tr'
  end.

Section Headers.

Variable w : World.
Implicit Types (pos : Position) (data : list Position) (tr : list event).

Lemma signed_request_headers ak sk url t :
  http.Hdr (signed_request ak sk url t) = auth_headers timestamp ak sk t.
Proof.
  unfold signed_request, add_headers, auth_headers, http.Add. cbn [http.Hdr].
  apply map_eq. intros k.
  change (http.CanonicalMIMEHeaderKey "ApiKey") with "Apikey".
  change (http.CanonicalMIMEHeaderKey "Request-Time") with "Request-Time".
  change (http.CanonicalMIMEHeaderKey "Signature") with "Signature".
  change (http.CanonicalMIMEHeaderKey "Content-Type") with "Content-Type".
  repeat (rewrite lookup_insert; case_decide; subst;
          [try done | rewrite ?lookup_empty; simpl]).
  symmetry. by apply lookup_singleton_ne.
Qed.

Lemma signed_request_method ak sk url t :
  http.Method (signed_request ak sk url t) = "GET" ∧
  http.URL (signed_request ak sk url t) = url.
Proof. done. Qed.

Lemma stamped_query ak sk base reads sends pos reading tr :
  stamped timestamp ak sk None tr →
  stamped timestamp ak sk reading (query_events w ak sk base reads sends pos ++ tr).
Proof.
  intros Htr. unfold query_events.
  destruct (fetch_result _ _ _ _); cbn [app stamped];
    repeat split; eauto using signed_request_headers.
  destruct (report _ _ _); by cbn [app stamped].
Qed.

Lemma stamped_loop ak sk base reads sends data reading :
  stamped timestamp ak sk reading (loop_events w ak sk base reads sends data).
Proof.
  revert reads sends reading. induction data as [|pos data IH]; intros reads sends reading.
  - by destruct reading.
  - cbn [loop_events]. apply stamped_query, IH.
Qed.

Lemma stamped_run : stamped timestamp (accessKey w) (secretKey w) None (run w).
Proof.
  rewrite run_main_events. unfold main_events.
  destruct (fetch_result _ _ _ _); cbn [stamped];
    repeat split; eauto using signed_request_headers, stamped_loop.
Qed.

(** A request of a stamped trace carries the headers of a clock reading
    of the trace. *)
Lemma stamped_Do stamp ak sk reading tr req :
  stamped stamp ak sk reading tr → Do req ∈ tr →
  ∃ t, (reading = Some t ∨ Now t ∈ tr) ∧ http.Hdr req = auth_headers stamp ak sk t.
Proof.
  revert reading. induction tr as [|[t|req'|text] tr IH]; intros reading Hst Hin.
  - by apply elem_of_nil in Hin.
  - apply elem_of_cons in Hin as [?|Hin]; [done|].
    destruct (IH _ Hst Hin) as (t' & [Heq|Ht'] & Hh);
      exists t'; (split; [|done]); right; set_solver.
  - destruct Hst as [(t & -> & Hh) Hst].
    apply elem_of_cons in Hin as [[= <-]|Hin]; [by eauto|].
    destruct (IH _ Hst Hin) as (t' & [?|Ht'] & Hh'); [done|].
    exists t'. split; [right; set_solver | done].
  - apply elem_of_cons in Hin as [?|Hin]; [done|].
    destruct (IH _ Hst Hin) as (t' & [?|Ht'] & Hh'); [done|].
    exists t'. split; [right; set_solver | done].
Qed.

End Headers.

(** ** Sample worlds *)

Definition sample_env (k : string) : string :=
  if String.eqb k "MEXC_ACCESS_KEY" then "mx0aBYs33eIilxBWC5" else "45d0b3c26f2644f19bfb98b07741b2f5".

(** Half past a second on the clock, and no network. *)
Definition world_down : World := {|
  Getenv := sample_env;
  Clock := λ n, {| time.sec := 1700000000 + Z.of_nat n; time.nsec := 500000000 |};
  NewRequestErr := λ _ _, None;
  RoundTrip := λ _ _, SendFailed "dial tcp: connection refused";
  UnmarshalPositions := λ _, inl "unexpected end of JSON input";
  UnmarshalFairPrice := λ _, inl "unexpected end of JSON input"
|}.

Definition sample_positions : list Position :=
  [ {| Symbol := "BTC_USDT"; HoldAvgPrice := 100 |};
    {| Symbol := "ETH_USDT"; HoldAvgPrice := 100 |};
    {| Symbol := "SOL_USDT"; HoldAvgPrice := 100 |} ].

(** Three positions; the answer for the first is 110, the request for the
    second times out, the answer for the third is 90. *)
Definition world_sample : World := {|
  Getenv := sample_env;
  Clock := λ n, {| time.sec := 1700000000 + Z.of_nat n; time.nsec := 500000000 |};
  NewRequestErr := λ _ _, None;
  RoundTrip := λ n req, if Nat.eqb n 2 then SendFailed "context deadline exceeded"
                        else Body (http.URL req);
  UnmarshalPositions := λ _, inr sample_positions;
  UnmarshalFairPrice := λ body,
    if String.eqb body (fair_price_url baseURL "BTC_USDT") then inr 110%float
    else inr 90%float
|}.

Example run_world_sample :
  omap (λ e, match e with Stdout text => Some text | _ => None end) (run world_sample)
  = [ "For BTC_USDT, FairPrice (110.000000) is greater than HoldAvgPrice (100.000000) by: 10.000000 (10.00%)" +:+ newline;
      "Error sending request for symbol ETH_USDT: context deadline exceeded" +:+ newline;
      "For SOL_USDT, HoldAvgPrice (100.000000) is greater than FairPrice (90.000000) by: 10.000000 (10.00%)" +:+ newline ].
Proof. vm_compute. reflexivity. Qed.

(** ** Failures *)

Section Failures.

Variable w : World.
Implicit Types (pos q : Position) (data before after : list Position) (s : State).

Lemma positions_url_not_fair_price symbol : positions_url ≠ fair_price_url baseURL symbol.
Proof. unfold positions_url, fair_price_url, baseURL. cbn. congruence. Qed.

Lemma forPositions_app ak sk base before after s :
  (forPositions w ak sk base (before ++ after) s).2
  = (forPositions w ak sk base after (forPositions w ak sk base before s).2).2.
Proof.
  revert s. induction before as [|pos before IH]; intros s; [done|].
  cbn [app forPositions]. unfold mbind, M_bind.
  destruct (queryFairPriceForSymbol _ _ _ _ _ _ _) as [[] s']. apply IH.
Qed.

Lemma forPositions_extends ak sk base data s :
  trace s `prefix_of` trace (forPositions w ak sk base data s).2.
Proof. rewrite forPositions_run. by eexists. Qed.

(** Each position whose request can be built has its request sent. *)
Lemma loop_events_send ak sk base reads sends data q :
  q ∈ data → NewRequestErr w "GET" (fair_price_url base (Symbol q)) = None →
  ∃ t, Do (signed_request ak sk (fair_price_url base (Symbol q)) t)
       ∈ loop_events w ak sk base reads sends data.
Proof.
  intros Hq Hbuilt. revert reads sends.
  induction data as [|pos data IH]; intros reads sends; [by apply elem_of_nil in Hq|].
  cbn [loop_events]. apply elem_of_cons in Hq as [<-|Hq].
  - exists (Clock w reads). apply elem_of_app. left.
    unfold query_events, fetch_result. cbn [signed_request add_headers http.Method http.URL].
    rewrite Hbuilt. destruct (RoundTrip w sends _); [set_solver..|].
    destruct (UnmarshalFairPrice w _); set_solver.
  - destruct (IH Hq (S reads) (sends + query_sends w base pos)) as [t Ht].
    exists t. apply elem_of_app. by right.
Qed.

End Failures.

(** C7. If the open-positions fetch fails, at request construction, in
    transport, reading the body or decoding it, the run is: the clock
    reading, the request if it could be built, and one diagnostic; then it
    ends.  No request for a fair price is made. *)
Theorem positions_failure_is_fatal (w : World) :
  let req := signed_request (accessKey w) (secretKey w) positions_url (Clock w 0) in
  let r := fetch_result w (UnmarshalPositions w) 0 req in
  failed r →
  (run w = [Now (Clock w 0); Stdout (positions_diagnostic r)] ∨
   run w = [Now (Clock w 0); Do req; Stdout (positions_diagnostic r)]) ∧
  String.prefix "Error " (positions_diagnostic r) = true ∧
  (∀ req' symbol, Do req' ∈ run w →
     req' = req ∧ http.URL req' ≠ fair_price_url baseURL symbol).
Proof.
  intros req r Hfailed.
  assert (run w = [Now (Clock w 0); Stdout (positions_diagnostic r)] ∨
          run w = [Now (Clock w 0); Do req; Stdout (positions_diagnostic r)]) as Hrun.
  { rewrite run_main_events. unfold main_events. fold req. fold r.
    destruct r; auto. destruct Hfailed. }
  split; [done|]. split; [by destruct r|].
  intros req' symbol Hin.
  assert (req' = req) as ->.
  { destruct Hrun as [Hrun|Hrun]; rewrite Hrun in Hin;
      repeat (apply elem_of_cons in Hin as [Hin|Hin]; [by simplify_eq|]);
      by apply elem_of_nil in Hin. }
  split; [done|]. apply positions_url_not_fair_price.
Qed.

Lemma positions_failure_is_fatal_witness :
  let req := signed_request (accessKey world_down) (secretKey world_down) positions_url
               (Clock world_down 0) in
  let r := fetch_result world_down (UnmarshalPositions world_down) 0 req in
  (run world_down = [Now (Clock world_down 0); Stdout (positions_diagnostic r)] ∨
   run world_down = [Now (Clock world_down 0); Do req; Stdout (positions_diagnostic r)]) ∧
  String.prefix "Error " (positions_diagnostic r) = true ∧
  (∀ req' symbol, Do req' ∈ run world_down →
     req' = req ∧ http.URL req' ≠ fair_price_url baseURL symbol).
Proof. apply (positions_failure_is_fatal world_down). vm_compute. exact I. Defined.

(** C8. When the fair-price fetch of one position fails, that call reads
    the clock, sends the request if it could be built, and prints one
    diagnostic naming the symbol.  The loop goes on from there: every later
    position is processed (its request is sent unless it cannot be built),
    and what was printed before stays as it was. *)
Theorem fair_price_failure_is_local (w : World) (ak sk base : string)
    (before after : list Position) (pos : Position) (s : State) :
  let s1 := (forPositions w ak sk base before s).2 in
  let t := Clock w (reads s1) in
  let req := signed_request ak sk (fair_price_url base (Symbol pos)) t in
  let r := fetch_result w (UnmarshalFairPrice w) (sends s1) req in
  let s2 := (queryFairPriceForSymbol w ak sk base (Symbol pos) (HoldAvgPrice pos) s1).2 in
  let final := (forPositions w ak sk base (before ++ pos :: after) s).2 in
  failed r →
  (trace s2 = trace s1 ++ [Now t; Stdout (fair_price_diagnostic (Symbol pos) r)] ∨
   trace s2 = trace s1 ++ [Now t; Do req; Stdout (fair_price_diagnostic (Symbol pos) r)]) ∧
  final = (forPositions w ak sk base after s2).2 ∧
  reads final = reads s2 + length after ∧
  (∀ q, q ∈ after → NewRequestErr w "GET" (fair_price_url base (Symbol q)) = None →
        ∃ t', Do (signed_request ak sk (fair_price_url base (Symbol q)) t') ∈ trace final) ∧
  trace s1 `prefix_of` trace s2 ∧ trace s2 `prefix_of` trace final.
Proof.
  intros s1 t req r s2 final Hfailed.
  assert (final = (forPositions w ak sk base after s2).2) as Hfinal.
  { unfold final. rewrite forPositions_app. fold s1. cbn [forPositions].
    unfold mbind, M_bind. fold s2.
    by destruct (queryFairPriceForSymbol _ _ _ _ _ _ _) as [[] ?]. }
  assert (trace s2 = trace s1 ++ query_events w ak sk base (reads s1) (sends s1) pos) as Hs2
    by (unfold s2; by rewrite queryFairPriceForSymbol_run).
  split; [|split; [done|]; split; [|split; [|split]]].
  - rewrite Hs2. unfold query_events. fold t. fold req. fold r.
    destruct r; auto. destruct Hfailed.
  - rewrite Hfinal, forPositions_run. done.
  - intros q Hq Hbuilt. rewrite Hfinal, forPositions_run. cbn [trace].
    destruct (loop_events_send w ak sk base (reads s2) (sends s2) after q Hq Hbuilt)
      as [t' Ht'].
    exists t'. apply elem_of_app. by right.
  - rewrite Hs2. by eexists.
  - rewrite Hfinal. apply forPositions_extends.
Qed.

Lemma fair_price_failure_is_local_witness :
  let w := world_sample in
  let ak := accessKey w in
  let sk := secretKey w in
  let before := take 1 sample_positions in
  let pos := {| Symbol := "ETH_USDT"; HoldAvgPrice := 100 |} in
  let after := drop 2 sample_positions in
  let s := {| reads := 1; sends := 1; trace := [] |} in
  let s1 := (forPositions w ak sk baseURL before s).2 in
  let t := Clock w (reads s1) in
  let req := signed_request ak sk (fair_price_url baseURL (Symbol pos)) t in
  let r := fetch_result w (UnmarshalFairPrice w) (sends s1) req in
  let s2 := (queryFairPriceForSymbol w ak sk baseURL (Symbol pos) (HoldAvgPrice pos) s1).2 in
  let final := (forPositions w ak sk baseURL (before ++ pos :: after) s).2 in
  (trace s2 = trace s1 ++ [Now t; Stdout (fair_price_diagnostic (Symbol pos) r)] ∨
   trace s2 = trace s1 ++ [Now t; Do req; Stdout (fair_price_diagnostic (Symbol pos) r)]) ∧
  final = (forPositions w ak sk baseURL after s2).2 ∧
  reads final = reads s2 + length after ∧
  (∀ q, q ∈ after → NewRequestErr w "GET" (fair_price_url baseURL (Symbol q)) = None →
        ∃ t', Do (signed_request ak sk (fair_price_url baseURL (Symbol q)) t') ∈ trace final) ∧
  trace s1 `prefix_of` trace s2 ∧ trace s2 `prefix_of` trace final.
Proof.
  apply (fair_price_failure_is_local world_sample (accessKey world_sample)
           (secretKey world_sample) baseURL (take 1 sample_positions) (drop 2 sample_positions)
           {| Symbol := "ETH_USDT"; HoldAvgPrice := 100 |}
           {| reads := 1; sends := 1; trace := [] |}).
  vm_compute. exact I.
Defined.

(** C9. Every request handed to the client carries exactly four headers:
    the access key (under [ApiKey], stored as [Apikey]), the timestamp of
    the clock reading made for it, the signature computed with that same
    timestamp, and the content type [application/json]. *)
Theorem every_request_has_four_headers (w : World) (req : http.Request) :
  Do req ∈ run w →
  ∃ t : time.Time,
    Now t ∈ run w ∧
    http.Hdr req = auth_headers timestamp (accessKey w) (secretKey w) t ∧
    size (http.Hdr req) = 4 ∧
    http.Get (http.Hdr req) "ApiKey" = accessKey w ∧
    http.Get (http.Hdr req) "Request-Time" = timestamp t ∧
    http.Get (http.Hdr req) "Signature" = sign (accessKey w) (secretKey w) (timestamp t) "" ∧
    http.Get (http.Hdr req) "Content-Type" = "application/json".
Proof.
  intros Hin.
  destruct (stamped_Do timestamp _ _ None _ req (stamped_run w) Hin)
    as (t & [?|Ht] & Hh); [done|].
  exists t. rewrite Hh. by repeat split.
Qed.

Lemma every_request_has_four_headers_witness :
  ∃ t : time.Time,
    Now t ∈ run world_down ∧
    http.Hdr (signed_request (accessKey world_down) (secretKey world_down) positions_url
                (Clock world_down 0))
    = auth_headers timestamp (accessKey world_down) (secretKey world_down) t ∧
    size (http.Hdr (signed_request (accessKey world_down) (secretKey world_down)
                      positions_url (Clock world_down 0))) = 4 ∧
    http.Get (http.Hdr (signed_request (accessKey world_down) (secretKey world_down)
                          positions_url (Clock world_down 0))) "ApiKey"
    = accessKey world_down ∧
    http.Get (http.Hdr (signed_request (accessKey world_down) (secretKey world_down)
                          positions_url (Clock world_down 0))) "Request-Time"
    = timestamp t ∧
    http.Get (http.Hdr (signed_request (accessKey world_down) (secretKey world_down)
                          positions_url (Clock world_down 0))) "Signature"
    = sign (accessKey world_down) (secretKey world_down) (timestamp t) "" ∧
    http.Get (http.Hdr (signed_request (accessKey world_down) (secretKey world_down)
                          positions_url (Clock world_down 0))) "Content-Type"
    = "application/json".
Proof.
  apply (every_request_has_four_headers world_down).
  vm_compute. apply list_elem_of_further, list_elem_of_here.
Defined.

(** ** The timestamp *)

(** The value of a string of decimal digits read after [acc]. *)
Fixpoint decimal_digits (s : string) (acc : Z) : option Z :=
  match s with
  | EmptyString => Some acc
  | String c s' =>
      if Bytes.between "0" "9" c
      then decimal_digits s' (10 * acc + (Z.of_N (Bytes.code c) - 48))
      else None
  end.

(** The integer a base-10 numeral denotes: digits, after an optional
    minus sign. *)
Definition decimal_value (s : string) : option Z :=
  match s with
  | EmptyString => None
  | String "-" EmptyString => None
  | String "-" s' => Z.opp <$> decimal_digits s' 0
  | _ => decimal_digits s 0
  end.

(** The timestamp the specification describes: the milliseconds since the
    epoch. *)
Definition millis_timestamp (t : time.Time) : string :=
  strconv.FormatInt (time.UnixMilli t).

Section Timestamp.

#[local] Open Scope Z_scope.

Lemma digit_char_value (d : Z) :
  0 ≤ d < 10 →
  Bytes.between "0" "9" (strconv.digit_char d) = true ∧
  Z.of_N (Bytes.code (strconv.digit_char d)) - 48 = d.
Proof.
  intros Hd.
  assert (d = 0 ∨ d = 1 ∨ d = 2 ∨ d = 3 ∨ d = 4 ∨ d = 5 ∨ d = 6 ∨ d = 7 ∨ d = 8 ∨ d = 9)
    as Hcases by lia.
  repeat (destruct Hcases as [->|Hcases]; [done|]). by subst.
Qed.

(** The digit loop writes a numeral for [u] in front of the rest. *)
Lemma format_uint_digits (fuel : nat) (u : Z) (rest : string) :
  0 ≤ u < 10 ^ Z.of_nat fuel →
  ∃ ds : string,
    strconv.format_uint fuel u rest = ds +:+ rest ∧
    (fuel ≠ 0%nat → ds ≠ "") ∧
    Bytes.all (Bytes.between "0" "9") ds = true ∧
    ∀ rest' acc,
      decimal_digits (ds +:+ rest') acc
      = decimal_digits rest' (acc * 10 ^ Z.of_nat (String.length ds) + u).
Proof.
  revert u rest. induction fuel as [|fuel IH]; intros u rest Hu.
  - exists "". repeat split; [done|]. intros rest' acc.
    change (Z.of_nat 0) with 0 in Hu. rewrite Z.pow_0_r in Hu.
    change ("" +:+ rest') with rest'. change (Z.of_nat (String.length "")) with 0.
    f_equal. lia.
  - cbn [strconv.format_uint].
    destruct (digit_char_value (u mod 10)) as [Hdigit Hval];
      [by apply Z.mod_pos_bound|].
    destruct (Z.ltb_spec u 10) as [Hsmall|Hbig].
    + exists (String (strconv.digit_char (u mod 10)) "").
      split; [done|]. split; [done|]. split; [by cbn; rewrite Hdigit|].
      intros rest' acc. cbn. rewrite Hdigit, Hval. f_equal.
      rewrite Z.mod_small by lia. lia.
    + destruct (IH (u / 10) (String (strconv.digit_char (u mod 10)) rest))
        as (ds & Hds & _ & Hall & Hparse).
      { split; [apply Z.div_pos; lia|].
        apply Z.div_lt_upper_bound; [lia|].
        rewrite Nat2Z.inj_succ, Z.pow_succ_r in Hu; lia. }
      exists (ds +:+ String (strconv.digit_char (u mod 10)) "").
      split; [by rewrite Hds, append_assoc|].
      split; [by destruct ds|].
      split; [by rewrite all_append, Hall; cbn; rewrite Hdigit|].
      intros rest' acc. rewrite append_assoc, Hparse. cbn [String.append decimal_digits].
      rewrite Hdigit, Hval. f_equal.
      rewrite length_append, Nat2Z.inj_add, Z.pow_add_r by lia.
      cbn [String.length]. pose proof (Z.div_mod u 10 ltac:(lia)). lia.
Qed.

Lemma FormatUint_decimal (u : Z) :
  0 ≤ u →
  ∃ ds, strconv.FormatUint u = ds ∧ ds ≠ "" ∧
        Bytes.all (Bytes.between "0" "9") ds = true ∧ decimal_digits ds 0 = Some u.
Proof.
  intros Hu. unfold strconv.FormatUint.
  destruct (format_uint_digits (S (Z.to_nat (Z.log2 u))) u "") as (ds & Hds & Hne & Hall & Hparse).
  { split; [done|]. rewrite Nat2Z.inj_succ, Z2Nat.id by apply Z.log2_nonneg.
    destruct (Z.eq_dec u 0) as [->|]; [done|].
    apply Z.lt_le_trans with (2 ^ Z.succ (Z.log2 u)); [apply Z.log2_spec; lia|].
    apply Z.pow_le_mono_l. lia. }
  exists ds. rewrite Hds, append_nil_r. split; [done|]. split; [by apply Hne|].
  split; [done|]. specialize (Hparse "" 0). by rewrite append_nil_r in Hparse.
Qed.

(** [FormatInt] writes the base-10 numeral of its argument. *)
Lemma FormatInt_decimal (i : Z) : decimal_value (strconv.FormatInt i) = Some i.
Proof.
  unfold strconv.FormatInt. destruct (Z.ltb_spec i 0) as [Hneg|Hpos].
  - destruct (FormatUint_decimal (- i)) as (ds & -> & Hne & Hall & Hval); [lia|].
    unfold decimal_value. destruct ds as [|c ds]; [done|].
    rewrite Hval. cbn. f_equal. lia.
  - destruct (FormatUint_decimal i) as (ds & -> & Hne & Hall & Hval); [lia|].
    unfold decimal_value. destruct ds as [|c ds]; [done|].
    cbn [Bytes.all] in Hall. apply andb_true_iff in Hall as [Hc _].
    assert (c ≠ "-"%char) as Hminus by (by intros ->).
    destruct c as [[] [] [] [] [] [] [] []]; try done.
Qed.

Lemma int64_in_range (z : Z) : - 2 ^ 63 ≤ z < 2 ^ 63 → int64 z = z.
Proof. intros Hz. unfold int64. rewrite Z.mod_small; lia. Qed.

End Timestamp.

(** C4, as the code has it.  Every request comes right after a clock
    reading of its own and carries the timestamp and the signature computed
    from that reading.  The timestamp is the base-10 numeral of 1000 times
    the whole seconds since the epoch: the time in milliseconds with the
    part below a second cut off. *)
Theorem timestamp_is_whole_seconds (w : World) :
  stamped timestamp (accessKey w) (secretKey w) None (run w) ∧
  (∀ t, decimal_value (timestamp t) = Some (int64 (time.Unix t * 1000))) ∧
  (∀ t, (- 2 ^ 63 ≤ time.Unix t * 1000 < 2 ^ 63)%Z → (0 ≤ time.nsec t < 1000000000)%Z →
        decimal_value (timestamp t)
        = Some (time.UnixMilli t - time.UnixMilli t mod 1000)%Z).
Proof.
  split; [apply stamped_run|]. split; [intros t; apply FormatInt_decimal|].
  intros t Hsec Hnsec. unfold timestamp. rewrite FormatInt_decimal, int64_in_range by done.
  f_equal. unfold time.UnixMilli, time.Unix.
  assert (0 ≤ time.nsec t / 1000000 < 1000)%Z as Hms.
  { split; [apply Z.div_pos; lia | apply Z.div_lt_upper_bound; lia]. }
  rewrite Z.add_comm, Z.mod_add, Z.mod_small by lia. lia.
Qed.

(** C4, as the specification words it, fails: half past a second, the
    request carries the timestamp of the whole second, not the
    milliseconds since the epoch. *)
Lemma timestamp_not_milliseconds :
  let t := Clock world_down 0 in
  let req := signed_request (accessKey world_down) (secretKey world_down) positions_url t in
  Do req ∈ run world_down ∧
  http.Get (http.Hdr req) "Request-Time" = "1700000000000" ∧
  millis_timestamp t = "1700000000500" ∧
  ¬ stamped millis_timestamp (accessKey world_down) (secretKey world_down) None
      (run world_down).
Proof.
  split; [vm_compute; apply list_elem_of_further, list_elem_of_here|].
  split; [by vm_compute|]. split; [by vm_compute|].
  rewrite run_main_events. unfold main_events.
  change (fetch_result world_down _ 0 _) with (@NotSent (list Position) "dial tcp: connection refused").
  cbn [stamped]. intros [(t & [= <-] & Hh) _].
  apply (f_equal (λ h : http.Header, h !! "Request-Time")) in Hh.
  vm_compute in Hh. discriminate Hh.
Qed.

(** ** Binary64 arithmetic *)

Section SpecFloatFacts.

#[local] Open Scope Z_scope.

Implicit Types (m : positive) (e : Z) (s : bool) (mrs : shr_record).

Lemma digits2_pos_bounds m :
  2 ^ (Z.pos (digits2_pos m) - 1) ≤ Z.pos m < 2 ^ Z.pos (digits2_pos m).
Proof.
  induction m as [m IH|m IH|]; cbn [digits2_pos]; [| |done].
  all: rewrite Pos2Z.inj_succ; set (d := Z.pos (digits2_pos m)) in *.
  all: replace (Z.succ d - 1) with (Z.succ (d - 1)) by lia.
  all: rewrite (Z.pow_succ_r 2 (d - 1)), (Z.pow_succ_r 2 d) by lia; lia.
Qed.

Lemma iter_xO_pow2 m (d : positive) : Z.pos (Pos.iter xO m d) = Z.pos m * 2 ^ Z.pos d.
Proof.
  induction d as [|d IH] using Pos.peano_ind.
  - cbn. lia.
  - rewrite Pos.iter_succ, Pos2Z.inj_xO, IH, Pos2Z.inj_succ, Z.pow_succ_r by lia. lia.
Qed.

(** Aligning a mantissa to a lower exponent multiplies it by a power of 2. *)
Lemma shl_align_value m e e' :
  e' ≤ e →
  Z.pos (shl_align m e e').1 = Z.pos m * 2 ^ (e - e') ∧ (shl_align m e e').2 = e'.
Proof.
  intros He. unfold shl_align. destruct (e' - e) as [|d|d] eqn:Hd; cbn [fst snd].
  - replace (e - e') with 0 by lia. split; lia.
  - lia.
  - rewrite iter_xO_pow2. replace (e - e') with (Z.pos d) by lia. done.
Qed.

Lemma shr_1_div2 mrs : 0 ≤ shr_m mrs → shr_m (shr_1 mrs) = shr_m mrs / 2.
Proof.
  destruct mrs as [[|[p|p|]|p] r st]; cbn [shr_m shr_1]; intros H; try done.
  - rewrite Pos2Z.inj_xI. apply (Z.div_unique _ _ _ 1); lia.
  - rewrite Pos2Z.inj_xO. apply (Z.div_unique _ _ _ 0); lia.
Qed.

Lemma pow2_xO (p : positive) : 2 ^ Z.pos p~0 = 2 ^ Z.pos p * 2 ^ Z.pos p.
Proof. rewrite <- Z.pow_add_r by lia. f_equal. lia. Qed.

Lemma pow2_xI (p : positive) : 2 ^ Z.pos p~1 = 2 * (2 ^ Z.pos p * 2 ^ Z.pos p).
Proof.
  replace (Z.pos p~1) with (Z.succ (Z.pos p + Z.pos p)) by lia.
  rewrite Z.pow_succ_r, Z.pow_add_r by lia. done.
Qed.

(** Shifting a mantissa right by [p] bits divides it by [2^p]. *)
Lemma iter_shr_1_div (p : positive) mrs :
  0 ≤ shr_m mrs → shr_m (SpecFloat.iter_pos shr_1 p mrs) = shr_m mrs / 2 ^ Z.pos p.
Proof.
  revert mrs. induction p as [p IH|p IH|]; intros mrs Hm; cbn [SpecFloat.iter_pos].
  - assert (0 ≤ shr_m (shr_1 mrs)) as H1 by (rewrite shr_1_div2 by done; apply Z.div_pos; lia).
    assert (0 ≤ shr_m (SpecFloat.iter_pos shr_1 p (shr_1 mrs))) as H2
      by (rewrite IH by done; apply Z.div_pos; lia).
    rewrite IH, IH, shr_1_div2 by done. rewrite !Z.div_div by lia.
    by rewrite pow2_xI, Z.mul_assoc.
  - assert (0 ≤ shr_m (SpecFloat.iter_pos shr_1 p mrs)) as H2
      by (rewrite IH by done; apply Z.div_pos; lia).
    rewrite IH, IH by done. rewrite Z.div_div by lia.
    by rewrite pow2_xO.
  - by rewrite shr_1_div2.
Qed.

(** The sign of a float that is a number, and whether it is not zero. *)
Definition SFsign (f : spec_float) : option bool :=
  match f with
  | S754_nan => None
  | S754_zero s | S754_infinity s | S754_finite s _ _ => Some s
  end.

Definition SFnonzero (f : spec_float) : bool :=
  match f with
  | S754_zero _ | S754_nan => false
  | _ => true
  end.

Lemma fexp_binary64 e : fexp prec emax e = Z.max (e - 53) (-1074).
Proof. reflexivity. Qed.

Lemma shr_m_of_loc (m : Z) l : shr_m (shr_record_of_loc m l) = m.
Proof. by destruct l as [|[]]. Qed.

(** Rounding a mantissa to the format keeps it non-negative, and positive
    if the exponent is not below the least one. *)
Lemma shr_fexp_mantissa (m e : Z) l :
  0 ≤ m →
  0 ≤ shr_m (shr_fexp prec emax m e l).1 ∧
  (0 < m → -1074 ≤ e →
   0 < shr_m (shr_fexp prec emax m e l).1 ∧ -1074 ≤ (shr_fexp prec emax m e l).2).
Proof.
  intros Hm. unfold shr_fexp, shr. rewrite fexp_binary64.
  destruct (Z.max (Zdigits2 m + e - 53) (-1074) - e) as [|p|p] eqn:Hn; cbn [fst snd];
    rewrite ?shr_m_of_loc; [by auto| |by auto].
  rewrite iter_shr_1_div by (by rewrite shr_m_of_loc). rewrite shr_m_of_loc.
  split; [apply Z.div_pos; lia|]. intros Hpos He.
  destruct m as [|m|m]; [lia| |lia]. cbn [Zdigits2] in Hn.
  pose proof (digits2_pos_bounds m) as [Hlo _].
  split; [|lia]. apply Z.div_str_pos. split; [lia|].
  eapply Z.le_trans; [|exact Hlo]. apply Z.pow_le_mono_r; lia.
Qed.

Lemma round_nearest_even_ge (m : Z) l : m ≤ round_nearest_even m l.
Proof. destruct l as [|[]]; cbn; try lia. destruct (Z.even m); lia. Qed.

Lemma binary_round_aux_sign s (m e : Z) l :
  0 ≤ m →
  SFsign (binary_round_aux prec emax s m e l) = Some s ∧
  (0 < m → -1074 ≤ e → SFnonzero (binary_round_aux prec emax s m e l) = true).
Proof.
  intros Hm. unfold binary_round_aux.
  pose proof (shr_fexp_mantissa m e l Hm) as [H1 H1'].
  destruct (shr_fexp prec emax m e l) as [mrs' e'] eqn:E1. cbn [fst snd] in *.
  pose proof (round_nearest_even_ge (shr_m mrs') (loc_of_shr_record mrs')) as Hr.
  set (m' := round_nearest_even (shr_m mrs') (loc_of_shr_record mrs')) in *.
  pose proof (shr_fexp_mantissa m' e' loc_Exact ltac:(lia)) as [H2 H2'].
  destruct (shr_fexp prec emax m' e' loc_Exact) as [mrs'' e''] eqn:E2. cbn [fst snd] in *.
  destruct (shr_m mrs'') as [|m''|m''] eqn:E3; [| |lia].
  - split; [done|]. intros Hpos He. destruct (H1' Hpos He) as [? ?].
    destruct H2' as [? ?]; lia.
  - destruct (e'' <=? emax - prec); by split.
Qed.

Lemma binary_round_sign s m e :
  -1074 ≤ e →
  SFsign (binary_round prec emax s m e) = Some s ∧
  SFnonzero (binary_round prec emax s m e) = true.
Proof.
  intros He. unfold binary_round.
  assert (-1074 ≤ (shl_align m e (fexp prec emax (Z.pos (digits2_pos m) + e))).2) as He'.
  { unfold shl_align. rewrite fexp_binary64.
    destruct (Z.max _ _ - e) eqn:Hd; cbn [snd]; lia. }
  destruct (shl_align m e _) as [mz ez]. cbn [snd] in He'.
  destruct (binary_round_aux_sign s (Z.pos mz) ez loc_Exact ltac:(lia)) as [Hs Hnz].
  split; [done|]. apply Hnz; lia.
Qed.

Lemma binary_normalize_sign (d e : Z) :
  d ≠ 0 → -1074 ≤ e →
  SFsign (binary_normalize prec emax d e false) = Some (d <? 0) ∧
  SFnonzero (binary_normalize prec emax d e false) = true.
Proof.
  intros Hd He. destruct d as [|d|d]; [done|..]; cbn [binary_normalize];
    by apply binary_round_sign.
Qed.

(** A float of the format: its exponent is the least one, or its mantissa
    has all 53 bits. *)
Lemma bounded_canonical m e :
  bounded prec emax m e = true →
  -1074 ≤ e ∧ Z.pos (digits2_pos m) ≤ 53 ∧ (e = -1074 ∨ Z.pos (digits2_pos m) = 53).
Proof.
  unfold bounded, canonical_mantissa. rewrite fexp_binary64.
  intros [Hc _]%andb_true_iff. apply Z.eqb_eq in Hc. lia.
Qed.

(** The mantissa of a float, signed and aligned to the exponent [ez]. *)
Definition aligned (s : bool) (m : positive) (e ez : Z) : Z :=
  cond_Zopp s (Z.pos (shl_align m e ez).1).

Lemma aligned_value s m e ez :
  ez ≤ e → aligned s m e ez = cond_Zopp s (Z.pos m * 2 ^ (e - ez)).
Proof. intros He. unfold aligned. by destruct (shl_align_value m e ez He) as [-> _]. Qed.

(** With a larger exponent comes a larger magnitude. *)
Lemma canonical_lt m1 e1 m2 e2 :
  bounded prec emax m1 e1 = true → bounded prec emax m2 e2 = true →
  e1 < e2 → Z.pos m1 < Z.pos m2 * 2 ^ (e2 - e1).
Proof.
  intros (He1 & Hd1 & _)%bounded_canonical (He2 & _ & Hd2)%bounded_canonical Hlt.
  destruct Hd2 as [?|Hd2]; [lia|].
  pose proof (digits2_pos_bounds m1) as [_ Hhi].
  pose proof (digits2_pos_bounds m2) as [Hlo _]. rewrite Hd2 in Hlo.
  assert (2 ^ Z.pos (digits2_pos m1) ≤ 2 ^ 53) by (apply Z.pow_le_mono_r; lia).
  assert (2 ^ 1 ≤ 2 ^ (e2 - e1)) by (apply Z.pow_le_mono_r; lia).
  change (2 ^ (53 - 1)) with 4503599627370496 in Hlo.
  change (2 ^ 53) with 9007199254740992 in *. change (2 ^ 1) with 2 in *. nia.
Qed.

(** Comparing two floats is comparing their aligned mantissas. *)
Lemma SFcompare_aligned s1 m1 e1 s2 m2 e2 :
  bounded prec emax m1 e1 = true → bounded prec emax m2 e2 = true →
  SFcompare (S754_finite s1 m1 e1) (S754_finite s2 m2 e2)
  = Some (aligned s1 m1 e1 (Z.min e1 e2) ?= aligned s2 m2 e2 (Z.min e1 e2)).
Proof.
  intros Hb1 Hb2. rewrite !aligned_value by lia. cbn [SFcompare]. f_equal.
  assert (0 < Z.pos m1 * 2 ^ (e1 - Z.min e1 e2)) as Hp1
    by (apply Z.mul_pos_pos; [lia | apply Z.pow_pos_nonneg; lia]).
  assert (0 < Z.pos m2 * 2 ^ (e2 - Z.min e1 e2)) as Hp2
    by (apply Z.mul_pos_pos; [lia | apply Z.pow_pos_nonneg; lia]).
  assert ((Z.pos m1 * 2 ^ (e1 - Z.min e1 e2) ?= Z.pos m2 * 2 ^ (e2 - Z.min e1 e2))
          = match e1 ?= e2 with
            | Lt => Lt
            | Gt => Gt
            | Eq => Pos.compare_cont Eq m1 m2
            end) as Hcmp.
  { destruct (Z.compare_spec e1 e2) as [->|Hlt|Hgt].
    - rewrite Z.min_id, Z.sub_diag, !Z.mul_1_r. done.
    - rewrite Z.min_l, Z.sub_diag, Z.mul_1_r by lia.
      apply Z.compare_lt_iff. by apply canonical_lt.
    - rewrite Z.min_r, Z.sub_diag, Z.mul_1_r by lia.
      apply Z.compare_gt_iff. by apply canonical_lt. }
  destruct s1, s2; cbn [cond_Zopp].
  - rewrite Z.compare_opp, (Z.compare_antisym (Z.pos m1 * _) (Z.pos m2 * _)), Hcmp.
    by destruct (e1 ?= e2).
  - symmetry. apply Z.compare_lt_iff. lia.
  - symmetry. apply Z.compare_gt_iff. lia.
  - by rewrite Hcmp.
Qed.

(** Zero or finite: what a JSON number decodes to. *)
Definition SFnumber (f : spec_float) : bool :=
  match f with
  | S754_zero _ | S754_finite _ _ _ => true
  | _ => false
  end.

(** The difference of two different numbers is not zero and has the sign
    of the comparison. *)
Lemma SFsub_sign (x y : spec_float) :
  valid_binary x = true → valid_binary y = true →
  SFnumber x = true → SFnumber y = true → SFeqb x y = false →
  SFsign (SF64sub x y) = Some (SFltb x y) ∧
  SFnonzero (SF64sub x y) = true ∧
  SFltb y x = negb (SFltb x y).
Proof.
  intros Hvx Hvy Hx Hy Hne.
  destruct x as [sx|sx| |sx mx ex], y as [sy|sy| |sy my ey]; try done.
  - by destruct sy.
  - by destruct sx.
  - cbn [valid_binary] in Hvx, Hvy.
    pose proof (bounded_canonical _ _ Hvx) as (Hex & _).
    pose proof (bounded_canonical _ _ Hvy) as (Hey & _).
    unfold SFeqb, SFltb in *. rewrite SFcompare_aligned in * by done.
    rewrite (SFcompare_aligned sy my ey sx mx ex), (Z.min_comm ey ex) by done.
    set (ax := aligned sx mx ex (Z.min ex ey)) in *.
    set (ay := aligned sy my ey (Z.min ex ey)) in *.
    assert (ax ≠ ay) as Hd.
    { intros Heq. rewrite Heq, Z.compare_refl in Hne. done. }
    unfold SF64sub. cbn [SFsub]. fold (aligned sx mx ex (Z.min ex ey)).
    fold (aligned sy my ey (Z.min ex ey)). fold ax. fold ay.
    destruct (binary_normalize_sign (ax - ay) (Z.min ex ey)) as [Hs Hnz]; [lia..|].
    rewrite Hs, Hnz. repeat split.
    + f_equal. unfold Z.ltb. rewrite (Z.compare_sub ax ay). done.
    + rewrite (Z.compare_antisym ax ay). destruct (Z.compare_spec ax ay); done.
Qed.

Lemma SFdiv_sign (a : spec_float) sa sb mb eb :
  SFsign a = Some sa → SFnonzero a = true →
  SFsign (SF64div a (S754_finite sb mb eb)) = Some (xorb sa sb).
Proof.
  intros Hs Hnz. destruct a as [s|s| |s ma ea]; try done; injection Hs as ->; [done|].
  unfold SF64div. cbn [SFdiv].
  destruct (SFdiv_core_binary prec emax (Z.pos ma) ea (Z.pos mb) eb) as [[mz ez] lz] eqn:E.
  apply binary_round_aux_sign.
  unfold SFdiv_core_binary in E.
  set (m' := match _ - _ with Z0 => Z.pos ma | Z.pos _ => Z.shiftl (Z.pos ma) _ | Z.neg _ => 0 end) in E.
  assert (0 ≤ m') as Hm'.
  { unfold m'. destruct (_ - _); [lia| |lia]. apply Z.shiftl_nonneg. lia. }
  pose proof (Z.div_pos m' (Z.pos mb) Hm' ltac:(lia)) as Hq.
  unfold Z.div in Hq. destruct (Z.div_eucl m' (Z.pos mb)) as [q r].
  by injection E as <- _ _.
Qed.

Lemma SFmul_sign (a : spec_float) sa sb mb eb :
  SFsign a = Some sa →
  SFsign (SF64mul a (S754_finite sb mb eb)) = Some (xorb sa sb).
Proof.
  intros Hs. destruct a as [s|s| |s ma ea]; try done; injection Hs as ->; try done.
  unfold SF64mul. cbn [SFmul]. apply binary_round_aux_sign. lia.
Qed.

Lemma SFabs_of_sign (a : spec_float) s :
  SFsign a = Some s → SFabs a = if s then SFopp a else a.
Proof. destruct a as [sa|sa| |sa m e]; try done; intros [= <-]; by destruct sa. Qed.

Lemma SFltb_zero_sign (a : spec_float) s :
  SFsign a = Some s → SFnonzero a = true → SFltb (S754_zero false) a = negb s.
Proof. destruct a as [sa|sa| |sa m e]; try done; intros [= <-] _; by destruct sa. Qed.

End SpecFloatFacts.

(** ** The report line *)

(** The sentence both [Printf] calls print, with the greater quantity
    named first. *)
Definition sentence (symbol greater : string) (gv : float) (lesser : string) (lv : float)
    (difference percent : float) : string :=
  "For " +:+ symbol +:+ ", " +:+ greater +:+ " (" +:+ fmt_f gv +:+ ") is greater than " +:+
  lesser +:+ " (" +:+ fmt_f lv +:+ ") by: " +:+ fmt_f difference +:+
  " (" +:+ fmt_2f percent +:+ "%)" +:+ newline.

(** A decimal numeral with [n] decimals and no sign. *)
Definition decimals (n : nat) (text : string) : Prop :=
  ∃ whole frac : string,
    text = whole +:+ String "." frac ∧
    whole ≠ "" ∧ Bytes.all (Bytes.between "0" "9") whole = true ∧
    String.length frac = n ∧ Bytes.all (Bytes.between "0" "9") frac = true.

Section Report.

#[local] Open Scope float_scope.

Implicit Types (x y fairPrice holdAvgPrice : float).

Lemma report_sentence symbol fairPrice holdAvgPrice :
  report symbol fairPrice holdAvgPrice
  = if fairPrice =? holdAvgPrice then None
    else
      let difference := fairPrice - holdAvgPrice in
      let percent := difference / holdAvgPrice * 100 in
      Some (if 0 <? difference
            then sentence symbol "FairPrice" fairPrice "HoldAvgPrice" holdAvgPrice
                   difference percent
            else sentence symbol "HoldAvgPrice" holdAvgPrice "FairPrice" fairPrice
                   (- difference) (- percent)).
Proof.
  unfold report, sentence. destruct (fairPrice =? holdAvgPrice); [done|].
  cbn [negb]. cbv zeta. by destruct (0 <? fairPrice - holdAvgPrice).
Qed.

Lemma Prim2SF_number x : is_finite x = true → SFnumber (Prim2SF x) = true.
Proof.
  unfold is_finite, is_nan, is_infinity. rewrite !FloatAxioms.eqb_spec, abs_spec.
  change (Prim2SF infinity) with (S754_infinity false).
  by destruct (Prim2SF x) as [s|[]| |s m e].
Qed.

Lemma Prim2SF_positive x :
  is_finite x = true → (0 <? x) = true → ∃ m e, Prim2SF x = S754_finite false m e.
Proof.
  intros Hfin%Prim2SF_number Hpos. rewrite FloatAxioms.ltb_spec in Hpos.
  change (Prim2SF 0) with (S754_zero false) in Hpos.
  destruct (Prim2SF x) as [s|s| |[] m e]; try done. eauto.
Qed.

Lemma fixed_digits_digits (n : nat) (v : Z) (acc : string) :
  ∃ ds, strconv.fixed_digits n v acc = ds +:+ acc ∧
        String.length ds = n ∧ Bytes.all (Bytes.between "0" "9") ds = true.
Proof.
  revert v acc. induction n as [|n IH]; intros v acc; [by exists ""|].
  cbn [strconv.fixed_digits].
  destruct (IH (v / 10)%Z (String (strconv.digit_char (v mod 10)) acc))
    as (ds & -> & Hlen & Hall).
  destruct (digit_char_value (v mod 10)) as [Hdigit _]; [by apply Z.mod_pos_bound|].
  exists (ds +:+ String (strconv.digit_char (v mod 10)) "").
  rewrite append_assoc, length_append, all_append, Hall, Hlen. cbn.
  rewrite Hdigit. repeat split. lia.
Qed.

Lemma round_scaled_nonneg (num e : Z) : (0 ≤ num)%Z → (0 ≤ strconv.round_scaled num e)%Z.
Proof.
  intros Hnum. unfold strconv.round_scaled. destruct (Z.leb_spec 0 e).
  - apply Z.mul_nonneg_nonneg; [done|]. apply Z.pow_nonneg. lia.
  - assert (0 ≤ num / 2 ^ (- e))%Z by (apply Z.div_pos; [done|]; apply Z.pow_pos_nonneg; lia).
    destruct (_ ?= _)%Z; [destruct (Z.even _)|..]; lia.
Qed.

Lemma fixed_point_decimals (q : Z) (n : nat) :
  (0 ≤ q)%Z → n ≠ 0%nat → decimals n (strconv.fixed_point q n).
Proof.
  intros Hq Hn. unfold strconv.fixed_point.
  destruct (FormatUint_decimal (q / 10 ^ Z.of_nat n)) as (whole & -> & Hne & Hall & _).
  { apply Z.div_pos; [done|]. apply Z.pow_pos_nonneg; lia. }
  destruct (fixed_digits_digits n (q mod 10 ^ Z.of_nat n) "") as (frac & Hfrac & Hlen & Hd).
  rewrite append_nil_r in Hfrac. exists whole, frac. destruct n; [done|].
  by rewrite Hfrac.
Qed.

(** A float that is not negative prints as [+Inf] or as an unsigned
    numeral with the decimals asked for. *)
Lemma FormatFloat_unsigned (v : float) (n : nat) :
  n ≠ 0%nat → SFsign (Prim2SF v) = Some false →
  strconv.FormatFloat v n = "+Inf" ∨ decimals n (strconv.FormatFloat v n).
Proof.
  intros Hn Hs. unfold strconv.FormatFloat.
  destruct (Prim2SF v) as [s|s| |s m e]; try done; injection Hs as ->; [|by left|];
    right; apply fixed_point_decimals; try done.
  apply round_scaled_nonneg. apply Z.mul_nonneg_nonneg; [lia|]. apply Z.pow_nonneg. lia.
Qed.

(** The signs of the difference and of the percentage, for a positive
    average price and a different fair price. *)
Lemma difference_signs fairPrice holdAvgPrice :
  is_finite fairPrice = true → is_finite holdAvgPrice = true →
  (0 <? holdAvgPrice) = true → (fairPrice =? holdAvgPrice) = false →
  let difference := fairPrice - holdAvgPrice in
  let percent := difference / holdAvgPrice * 100 in
  (0 <? difference) = (holdAvgPrice <? fairPrice) ∧
  (holdAvgPrice <? fairPrice) = negb (fairPrice <? holdAvgPrice) ∧
  SFsign (Prim2SF difference) = Some (fairPrice <? holdAvgPrice) ∧
  SFsign (Prim2SF percent) = Some (fairPrice <? holdAvgPrice).
Proof.
  intros Hfx Hfy Hpos Hne difference percent.
  destruct (Prim2SF_positive _ Hfy Hpos) as (my & ey & Hy).
  rewrite FloatAxioms.eqb_spec in Hne.
  destruct (SFsub_sign (Prim2SF fairPrice) (Prim2SF holdAvgPrice))
    as (Hsign & Hnz & Hanti); auto using Prim2SF_valid, Prim2SF_number.
  rewrite <- sub_spec in Hsign, Hnz. fold difference in Hsign, Hnz.
  rewrite !FloatAxioms.ltb_spec. change (Prim2SF 0) with (S754_zero false).
  rewrite (SFltb_zero_sign _ _ Hsign Hnz), Hanti.
  split; [done|]. split; [done|]. split; [done|].
  unfold percent. rewrite mul_spec, div_spec, Hy in *.
  change (Prim2SF 100) with (S754_finite false 7036874417766400 (-46)).
  rewrite (SFmul_sign _ (SFltb (Prim2SF fairPrice) (S754_finite false my ey)) false).
  - by rewrite xorb_false_r.
  - rewrite <- (xorb_false_r (SFltb _ _)). by apply SFdiv_sign.
Qed.

Lemma abs_of_sign (v : float) s :
  SFsign (Prim2SF v) = Some s → abs v = if s then - v else v.
Proof.
  intros Hs. apply Prim2SF_inj. rewrite abs_spec, (SFabs_of_sign _ _ Hs).
  destruct s; [by rewrite opp_spec | done].
Qed.

End Report.

(** C5. When the fair-price fetch of a position succeeds: if the fair
    price equals the average price, as floats, the call prints nothing;
    otherwise it prints one line whose values are computed as
    [difference = fairPrice - holdAvgPrice] and
    [percentDifference = difference / holdAvgPrice * 100]. *)
Theorem report_on_success (w : World) (ak sk base : string) (pos : Position) (s : State)
    (fairPrice : float) :
  let t := Clock w (reads s) in
  let req := signed_request ak sk (fair_price_url base (Symbol pos)) t in
  let holdAvgPrice := HoldAvgPrice pos in
  let difference := (fairPrice - holdAvgPrice)%float in
  let percentDifference := (difference / holdAvgPrice * 100)%float in
  let out := trace (queryFairPriceForSymbol w ak sk base (Symbol pos) holdAvgPrice s).2 in
  fetch_result w (UnmarshalFairPrice w) (sends s) req = Fetched fairPrice →
  ((fairPrice =? holdAvgPrice)%float = true → out = trace s ++ [Now t; Do req]) ∧
  ((fairPrice =? holdAvgPrice)%float = false →
   out = trace s ++
         [Now t; Do req;
          Stdout (if (0 <? difference)%float
                  then sentence (Symbol pos) "FairPrice" fairPrice "HoldAvgPrice" holdAvgPrice
                         difference percentDifference
                  else sentence (Symbol pos) "HoldAvgPrice" holdAvgPrice "FairPrice" fairPrice
                         (- difference)%float (- percentDifference)%float)]).
Proof.
  intros t req holdAvgPrice difference percentDifference out Hfetched.
  unfold out, holdAvgPrice. rewrite queryFairPriceForSymbol_run. cbn [snd trace].
  unfold query_events. fold t. fold req. rewrite Hfetched, report_sentence.
  split; intros ->; done.
Qed.

Lemma report_on_success_witness :
  let w := world_sample in
  let pos := {| Symbol := "BTC_USDT"; HoldAvgPrice := 100 |} in
  let s := {| reads := 1; sends := 1; trace := [] |} in
  let fairPrice := 110%float in
  let t := Clock w (reads s) in
  let req := signed_request (accessKey w) (secretKey w) (fair_price_url baseURL (Symbol pos)) t in
  let holdAvgPrice := HoldAvgPrice pos in
  let difference := (fairPrice - holdAvgPrice)%float in
  let percentDifference := (difference / holdAvgPrice * 100)%float in
  let out := trace (queryFairPriceForSymbol w (accessKey w) (secretKey w) baseURL (Symbol pos)
                      holdAvgPrice s).2 in
  ((fairPrice =? holdAvgPrice)%float = true → out = trace s ++ [Now t; Do req]) ∧
  ((fairPrice =? holdAvgPrice)%float = false →
   out = trace s ++
         [Now t; Do req;
          Stdout (if (0 <? difference)%float
                  then sentence (Symbol pos) "FairPrice" fairPrice "HoldAvgPrice" holdAvgPrice
                         difference percentDifference
                  else sentence (Symbol pos) "HoldAvgPrice" holdAvgPrice "FairPrice" fairPrice
                         (- difference)%float (- percentDifference)%float)]).
Proof.
  apply (report_on_success world_sample (accessKey world_sample) (secretKey world_sample)
           baseURL {| Symbol := "BTC_USDT"; HoldAvgPrice := 100 |}
           {| reads := 1; sends := 1; trace := [] |} 110%float).
  vm_compute. reflexivity.
Defined.

(** The comparison is exact: the float next above 100 is reported. *)
Example report_next_float :
  report "BTC_USDT" (next_up 100) 100
  = Some ("For BTC_USDT, FairPrice (100.000000) is greater than HoldAvgPrice (100.000000) by: 0.000000 (0.00%)"
          +:+ newline).
Proof. vm_compute. reflexivity. Qed.

(** C6, as the code has it.  For a positive average price and a different
    fair price, both finite, the line names the greater of the two first,
    then the magnitude of their difference and of the percentage; each is
    printed without a sign, with six and with two decimals, or as [+Inf]
    if it overflows.  The two examples of the specification are instances. *)
Theorem report_names_the_greater (symbol : string) (fairPrice holdAvgPrice : float) :
  is_finite fairPrice = true → is_finite holdAvgPrice = true →
  (0 <? holdAvgPrice)%float = true → (fairPrice =? holdAvgPrice)%float = false →
  let difference := (fairPrice - holdAvgPrice)%float in
  let percent := (difference / holdAvgPrice * 100)%float in
  report symbol fairPrice holdAvgPrice
  = Some (if (holdAvgPrice <? fairPrice)%float
          then sentence symbol "FairPrice" fairPrice "HoldAvgPrice" holdAvgPrice
                 (abs difference) (abs percent)
          else sentence symbol "HoldAvgPrice" holdAvgPrice "FairPrice" fairPrice
                 (abs difference) (abs percent)) ∧
  ((holdAvgPrice <? fairPrice)%float = false → (fairPrice <? holdAvgPrice)%float = true) ∧
  (fmt_f (abs difference) = "+Inf" ∨ decimals 6 (fmt_f (abs difference))) ∧
  (fmt_2f (abs percent) = "+Inf" ∨ decimals 2 (fmt_2f (abs percent))) ∧
  report "BTC_USDT" 110 100
  = Some ("For BTC_USDT, FairPrice (110.000000) is greater than HoldAvgPrice (100.000000) by: 10.000000 (10.00%)"
          +:+ newline) ∧
  report "BTC_USDT" 90 100
  = Some ("For BTC_USDT, HoldAvgPrice (100.000000) is greater than FairPrice (90.000000) by: 10.000000 (10.00%)"
          +:+ newline).
Proof.
  intros Hfx Hfy Hpos Hne. cbv zeta.
  pose proof (difference_signs fairPrice holdAvgPrice Hfx Hfy Hpos Hne) as Hsigns.
  cbv zeta in Hsigns. destruct Hsigns as (Hbranch & Hanti & Hsd & Hsp).
  assert (∀ v : float, SFsign (Prim2SF v) = Some (fairPrice <? holdAvgPrice)%float →
                       SFsign (Prim2SF (abs v)) = Some false) as Habs.
  { intros v Hv. rewrite abs_spec. by destruct (Prim2SF v). }
  split; [|split; [|split; [|split; [|split]]]].
  - rewrite report_sentence, Hne. cbv zeta.
    rewrite Hbranch, (abs_of_sign _ _ Hsd), (abs_of_sign _ _ Hsp), Hanti.
    by destruct (fairPrice <? holdAvgPrice)%float.
  - rewrite Hanti. by intros ->%negb_false_iff.
  - apply FormatFloat_unsigned; auto.
  - apply FormatFloat_unsigned; auto.
  - vm_compute. reflexivity.
  - vm_compute. reflexivity.
Qed.

Lemma report_names_the_greater_witness :
  let difference := (110 - 100)%float in
  let percent := (difference / 100 * 100)%float in
  report "BTC_USDT" 110 100
  = Some (if (100 <? 110)%float
          then sentence "BTC_USDT" "FairPrice" 110 "HoldAvgPrice" 100
                 (abs difference) (abs percent)
          else sentence "BTC_USDT" "HoldAvgPrice" 100 "FairPrice" 110
                 (abs difference) (abs percent)) ∧
  ((100 <? 110)%float = false → (110 <? 100)%float = true) ∧
  (fmt_f (abs difference) = "+Inf" ∨ decimals 6 (fmt_f (abs difference))) ∧
  (fmt_2f (abs percent) = "+Inf" ∨ decimals 2 (fmt_2f (abs percent))) ∧
  report "BTC_USDT" 110 100
  = Some ("For BTC_USDT, FairPrice (110.000000) is greater than HoldAvgPrice (100.000000) by: 10.000000 (10.00%)"
          +:+ newline) ∧
  report "BTC_USDT" 90 100
  = Some ("For BTC_USDT, HoldAvgPrice (100.000000) is greater than FairPrice (90.000000) by: 10.000000 (10.00%)"
          +:+ newline).
Proof. apply (report_names_the_greater "BTC_USDT" 110 100); vm_compute; reflexivity. Defined.

(** C6, as the specification words it, fails: with a negative average
    price the percentage is printed with a minus sign, and with an average
    price of zero it is not printed with two decimals. *)
Lemma report_negative_percentage :
  report "BTC_USDT" 110 (-100)
  = Some ("For BTC_USDT, FairPrice (110.000000) is greater than HoldAvgPrice (-100.000000) by: 210.000000 (-210.00%)"
          +:+ newline) ∧
  fmt_2f ((110 - -100) / -100 * 100)%float = "-210.00" ∧
  report "BTC_USDT" 110 0
  = Some ("For BTC_USDT, FairPrice (110.000000) is greater than HoldAvgPrice (0.000000) by: 110.000000 (+Inf%)"
          +:+ newline).
Proof. repeat split; vm_compute; reflexivity. Qed.

(** C10. The percentage is computed by a division that nothing guards:
    with an average price of zero and any other finite fair price the
    inequality branch is taken, the percentage is infinite, and the line is
    printed, with [+Inf] for the percentage. *)
Theorem division_by_zero_is_unguarded (symbol : string) (fairPrice : float) :
  is_finite fairPrice = true → (fairPrice =? 0)%float = false →
  let difference := (fairPrice - 0)%float in
  let percentDifference := (difference / 0 * 100)%float in
  is_infinity percentDifference = true ∧
  ∃ text, report symbol fairPrice 0 = Some (text +:+ " (+Inf%)" +:+ newline).
Proof.
  intros Hfin%Prim2SF_number Hne difference percentDifference.
  rewrite FloatAxioms.eqb_spec in Hne. change (Prim2SF 0) with (S754_zero false) in Hne.
  destruct (Prim2SF fairPrice) as [s|s| |s m e] eqn:Hx; try done.
  assert (difference = fairPrice) as Hd.
  { apply Prim2SF_inj. unfold difference. rewrite sub_spec, Hx. done. }
  assert (Prim2SF percentDifference = S754_infinity s) as Hp.
  { unfold percentDifference. rewrite mul_spec, div_spec, Hd, Hx.
    change (Prim2SF 0) with (S754_zero false).
    change (Prim2SF 100) with (S754_finite false 7036874417766400 (-46)).
    by destruct s. }
  split.
  - unfold is_infinity. rewrite FloatAxioms.eqb_spec, abs_spec, Hp. done.
  - rewrite report_sentence.
    rewrite FloatAxioms.eqb_spec, Hx. change (Prim2SF 0) with (S754_zero false).
    cbn [SFeqb SFcompare]. cbv zeta. fold difference. fold percentDifference.
    rewrite FloatAxioms.ltb_spec, Hd, Hx. change (Prim2SF 0) with (S754_zero false).
    unfold sentence, fmt_2f, strconv.FormatFloat. rewrite opp_spec, Hp.
    destruct s; cbn [SFltb SFcompare SFopp negb].
    + exists ("For " +:+ symbol +:+ ", " +:+ "HoldAvgPrice" +:+ " (" +:+ fmt_f 0 +:+
              ") is greater than " +:+ "FairPrice" +:+ " (" +:+ fmt_f fairPrice +:+
              ") by: " +:+ fmt_f (- fairPrice)).
      by rewrite !append_assoc.
    + exists ("For " +:+ symbol +:+ ", " +:+ "FairPrice" +:+ " (" +:+ fmt_f fairPrice +:+
              ") is greater than " +:+ "HoldAvgPrice" +:+ " (" +:+ fmt_f 0 +:+
              ") by: " +:+ fmt_f fairPrice).
      by rewrite !append_assoc.
Qed.

Lemma division_by_zero_is_unguarded_witness :
  is_infinity ((1 - 0) / 0 * 100)%float = true ∧
  ∃ text, report "BTC_USDT" 1 0 = Some (text +:+ " (+Inf%)" +:+ newline).
Proof. apply (division_by_zero_is_unguarded "BTC_USDT" 1); vm_compute; reflexivity. Defined.

Example report_zero_average :
  report "BTC_USDT" 1 0
  = Some ("For BTC_USDT, FairPrice (1.000000) is greater than HoldAvgPrice (0.000000) by: 1.000000 (+Inf%)"
          +:+ newline).
Proof. vm_compute. reflexivity. Qed.

(** * Further properties *)

(** ** Decoding what [urlEncode] writes *)

Module unescape.

Definition unhex (c : ascii) : option N :=
  if Bytes.between "0" "9" c then Some (Bytes.code c - 48)%N
  else if Bytes.between "a" "f" c then Some (Bytes.code c - 87)%N
  else if Bytes.between "A" "F" c then Some (Bytes.code c - 55)%N
  else None.

(** [url.QueryUnescape], the decoder of the receiving side: [%XY] is the
    byte with these two hexadecimal digits, [+] is a space, and a [%] not
    followed by two hexadecimal digits is an error.  [pending] holds the
    digits read after a [%]. *)
Inductive pending := Plain | Percent | High (hi : N).

Fixpoint from (p : pending) (s : string) : option string :=
  match s with
  | EmptyString =>
      match p with
      | Plain => Some EmptyString
      | _ => None
      end
  | String c s' =>
      match p with
      | Plain =>
          if Ascii.eqb c "%" then from Percent s'
          else if Ascii.eqb c "+" then String " " <$> from Plain s'
          else String c <$> from Plain s'
      | Percent =>
          match unhex c with
          | Some hi => from (High hi) s'
          | None => None
          end
      | High hi =>
          match unhex c with
          | Some lo => String (ascii_of_N (16 * hi + lo)) <$> from Plain s'
          | None => None
          end
      end
  end.

Definition QueryUnescape (s : string) : option string := from Plain s.

End unescape.

(** The bytes [urlEncode] turns into three. *)
Fixpoint escaped_bytes (s : string) : nat :=
  match s with
  | EmptyString => 0
  | String c s' => (if unreserved c then 0 else 1) + escaped_bytes s'
  end.

Section UrlEncodeMore.

Lemma concat_map_append (f : ascii → string) (a b : string) :
  Bytes.concat_map f (a +:+ b) = Bytes.concat_map f a +:+ Bytes.concat_map f b.
Proof. induction a as [|x a IH]; simpl; [done | by rewrite IH, append_assoc]. Qed.

Lemma unescape_percent_byte (c : ascii) (rest : string) :
  unescape.from unescape.Plain (percent_byte c +:+ rest)
  = String c <$> unescape.from unescape.Plain rest.
Proof. by destruct c as [[] [] [] [] [] [] [] []]. Qed.

Lemma unescape_urlEncode (v : string) :
  unescape.QueryUnescape (urlEncode v) = Some v.
Proof.
  rewrite urlEncode_percent_encode. unfold unescape.QueryUnescape, percent_encode.
  induction v as [|c v IH]; [done|].
  cbn [Bytes.concat_map]. by rewrite unescape_percent_byte, IH.
Qed.

Lemma length_percent_byte (c : ascii) :
  String.length (percent_byte c) = 1 + 2 * (if unreserved c then 0 else 1).
Proof. by destruct c as [[] [] [] [] [] [] [] []]. Qed.

Lemma length_urlEncode (s : string) :
  String.length (urlEncode s) = String.length s + 2 * escaped_bytes s.
Proof.
  rewrite urlEncode_percent_encode. unfold percent_encode.
  induction s as [|c s IH]; [done|].
  cbn [Bytes.concat_map escaped_bytes String.length].
  rewrite length_append, length_percent_byte, IH. lia.
Qed.

Lemma escaped_bytes_bound (s : string) : escaped_bytes s ≤ String.length s.
Proof. induction s as [|c s IH]; cbn; [done|]. destruct (unreserved c); lia. Qed.

Lemma escaped_bytes_none (s : string) :
  escaped_bytes s = 0 ↔ Bytes.all unreserved s = true.
Proof.
  induction s as [|c s IH]; cbn; [done|].
  destruct (unreserved c); cbn; [done|]. split; [lia | done].
Qed.

End UrlEncodeMore.

(** X1. What [urlEncode] writes decodes to what it was given: the encoding
    loses nothing, and two different values never encode alike. *)
Theorem urlEncode_unescape (s : string) :
  unescape.QueryUnescape (urlEncode s) = Some s ∧
  (∀ s', urlEncode s' = urlEncode s → s' = s).
Proof.
  split; [apply unescape_urlEncode|]. intros s' Heq.
  pose proof (unescape_urlEncode s') as Hs'.
  rewrite Heq, unescape_urlEncode in Hs'. congruence.
Qed.

(** X2. [urlEncode] works byte by byte: the encoding of a concatenation is
    the concatenation of the encodings.  Each byte gives one or three
    bytes, so the result is at least as long as the value and at most
    three times as long, and it is the value itself exactly when the value
    has unreserved characters only. *)
Theorem urlEncode_bytewise (a b : string) :
  urlEncode (a +:+ b) = urlEncode a +:+ urlEncode b ∧
  String.length a ≤ String.length (urlEncode a) ≤ 3 * String.length a ∧
  (urlEncode a = a ↔ Bytes.all unreserved a = true).
Proof.
  split; [|split].
  - rewrite !urlEncode_percent_encode. apply concat_map_append.
  - rewrite length_urlEncode. pose proof (escaped_bytes_bound a). lia.
  - rewrite <- escaped_bytes_none. split.
    + intros Heq. pose proof (length_urlEncode a) as Hlen. rewrite Heq in Hlen. lia.
    + intros Hnone%escaped_bytes_none. rewrite urlEncode_percent_encode.
      unfold percent_encode. induction a as [|c a IH]; [done|].
      cbn [Bytes.all Bytes.concat_map] in *. apply andb_true_iff in Hnone as [Hc Ha].
      rewrite (IH Ha). unfold percent_byte. by rewrite Hc.
Qed.

(** ** Reading a canonical string back *)

Module canonical.

(** [strings.Split] at one separator byte. *)
Fixpoint Split (sep : ascii) (s : string) : list string :=
  match s with
  | EmptyString => [EmptyString]
  | String c s' =>
      if Ascii.eqb c sep then EmptyString :: Split sep s'
      else match Split sep s' with
           | [] => [String c EmptyString]
           | x :: xs => String c x :: xs
           end
  end.

(** [strings.Cut] at one separator byte: what is before and after its
    first occurrence. *)
Fixpoint Cut (sep : ascii) (s : string) : option (string * string) :=
  match s with
  | EmptyString => None
  | String c s' =>
      if Ascii.eqb c sep then Some (EmptyString, s')
      else prod_map (String c) id <$> Cut sep s'
  end.

Definition item (text : string) : option (string * string) :=
  '(k, encoded) ← Cut "=" text;
  v ← unescape.QueryUnescape encoded;
  Some (k, v).

(** The mapping a canonical string stands for: its [&]-separated items,
    each cut at its first [=], the value decoded. *)
Definition parse (s : string) : option (gmap string string) :=
  if String.eqb s "" then Some ∅
  else list_to_map <$> mapM item (Split "&" s).

End canonical.

(** A key that can be told from what surrounds it in the canonical string. *)
Definition plain_key (k : string) : bool :=
  Bytes.all (λ c, negb (Ascii.eqb c "&") && negb (Ascii.eqb c "=")) k.

Section CanonicalParse.

Import canonical.

Lemma Split_item (sep : ascii) (a rest : string) :
  Bytes.all (λ c, negb (Ascii.eqb c sep)) a = true →
  Split sep (a +:+ String sep rest) = a :: Split sep rest.
Proof.
  induction a as [|c a IH]; cbn [Bytes.all]; intros Ha.
  - cbn. by rewrite Ascii.eqb_refl.
  - apply andb_true_iff in Ha as [Hc Ha]. apply negb_true_iff in Hc.
    cbn. by rewrite Hc, (IH Ha).
Qed.

Lemma Split_last (sep : ascii) (a : string) :
  Bytes.all (λ c, negb (Ascii.eqb c sep)) a = true → Split sep a = [a].
Proof.
  induction a as [|c a IH]; cbn [Bytes.all]; intros Ha; [done|].
  apply andb_true_iff in Ha as [Hc Ha]. apply negb_true_iff in Hc.
  cbn. by rewrite Hc, (IH Ha).
Qed.

Lemma Split_concat (sep : ascii) (x : string) (xs : list string) :
  Forall (λ a, Bytes.all (λ c, negb (Ascii.eqb c sep)) a = true) (x :: xs) →
  Split sep (String.concat (String sep "") (x :: xs)) = x :: xs.
Proof.
  revert x. induction xs as [|y xs IH]; intros x Hall.
  - apply Split_last. by inversion Hall.
  - inversion Hall as [|? ? Hx Hrest]; subst.
    change (String.concat (String sep "") (x :: y :: xs))
      with (x +:+ String sep (String.concat (String sep "") (y :: xs))).
    by rewrite Split_item, IH.
Qed.

Lemma Cut_item (sep : ascii) (a rest : string) :
  Bytes.all (λ c, negb (Ascii.eqb c sep)) a = true →
  Cut sep (a +:+ String sep rest) = Some (a, rest).
Proof.
  induction a as [|c a IH]; cbn [Bytes.all]; intros Ha.
  - cbn. by rewrite Ascii.eqb_refl.
  - apply andb_true_iff in Ha as [Hc Ha]. apply negb_true_iff in Hc.
    cbn. by rewrite Hc, (IH Ha).
Qed.

Lemma all_weaken (p q : ascii → bool) (s : string) :
  (∀ c, p c = true → q c = true) → Bytes.all p s = true → Bytes.all q s = true.
Proof.
  intros Hpq. induction s as [|c s IH]; cbn; [done|].
  intros [Hc Hs]%andb_true_iff. by rewrite (Hpq c Hc), IH.
Qed.

Lemma percent_alphabet_plain (c : ascii) :
  percent_alphabet c = true → negb (Ascii.eqb c "&") = true.
Proof. by destruct c as [[] [] [] [] [] [] [] []]. Qed.

Lemma item_param_item (kv : string * string) :
  plain_key kv.1 = true → item (param_item kv) = Some kv.
Proof.
  destruct kv as [k v]. unfold plain_key, item, param_item. cbn [fst snd]. intros Hk.
  change (k +:+ "=" +:+ urlEncode v) with (k +:+ String "=" (urlEncode v)).
  rewrite Cut_item.
  - cbn. by rewrite unescape_urlEncode.
  - revert Hk. apply all_weaken. by intros c [_ ?]%andb_true_iff.
Qed.

Lemma param_item_no_separator (kv : string * string) :
  plain_key kv.1 = true →
  Bytes.all (λ c, negb (Ascii.eqb c "&")) (param_item kv) = true.
Proof.
  destruct kv as [k v]. unfold plain_key, param_item. cbn [fst snd]. intros Hk.
  rewrite !all_append. apply andb_true_iff. split; [|apply andb_true_iff; split].
  - revert Hk. apply all_weaken. by intros c [? _]%andb_true_iff.
  - done.
  - generalize (urlEncode_alphabet v). apply all_weaken, percent_alphabet_plain.
Qed.

Lemma mapM_items (kvs : list (string * string)) :
  Forall (λ kv, plain_key kv.1 = true) kvs →
  mapM item (param_item <$> kvs) = Some kvs.
Proof.
  induction 1 as [|kv kvs Hkv _ IH]; [done|].
  cbn. by rewrite (item_param_item kv Hkv), IH.
Qed.

Lemma parse_items (kvs : list (string * string)) :
  Forall (λ kv, plain_key kv.1 = true) kvs →
  parse (String.concat "&" (param_item <$> kvs)) = Some (list_to_map kvs).
Proof.
  intros Hall. destruct kvs as [|kv kvs]; [done|].
  unfold parse.
  assert (String.eqb (String.concat "&" (param_item <$> kv :: kvs)) "" = false) as ->.
  { apply String.eqb_neq. destruct kv as [k v]. unfold param_item. cbn [fmap list_fmap fst snd].
    destruct kvs, k; cbn; discriminate. }
  change (param_item <$> kv :: kvs) with (param_item kv :: (param_item <$> kvs)).
  rewrite Split_concat.
  - change (param_item kv :: (param_item <$> kvs)) with (param_item <$> kv :: kvs).
    by rewrite mapM_items.
  - change (param_item kv :: (param_item <$> kvs)) with (param_item <$> kv :: kvs).
    apply Forall_fmap. eapply Forall_impl; [exact Hall|].
    intros ?. apply param_item_no_separator.
Qed.

End CanonicalParse.

(** X3. A mapping whose keys have neither [&] nor [=] can be read back
    from its canonical string: splitting at [&], cutting each item at its
    first [=] and decoding the value gives the mapping again, whatever the
    values are.  So two such mappings with the same canonical string are
    the same mapping. *)
Theorem getRequestParamString_parse (params : gmap string string) (order : list string) :
  range_order params order →
  (∀ k v, params !! k = Some v → plain_key k = true) →
  canonical.parse (getRequestParamString_in order params) = Some params.
Proof.
  unfold range_order. intros Horder Hkeys.
  assert (sort.Strings order ≡ₚ (map_to_list params).*1) as Hsorted
    by (by rewrite Strings_perm).
  pose proof (param_items params _ Hsorted) as Hitems.
  rewrite getRequestParamString_in_sorted, parse_items.
  - f_equal. etrans; [|apply (list_to_map_to_list params)].
    apply list_to_map_proper; [|done].
    rewrite Hitems. apply NoDup_fst_map_to_list.
  - rewrite Hitems. apply Forall_forall. intros [k v] Hkv%elem_of_map_to_list.
    by apply (Hkeys k v).
Qed.

Lemma getRequestParamString_parse_witness :
  canonical.parse (getRequestParamString_in ["b"; "a"] {[ "a" := "x&y=z"; "b" := "1 2" ]})
  = Some {[ "a" := "x&y=z"; "b" := "1 2" ]}.
Proof.
  apply (getRequestParamString_parse {[ "a" := "x&y=z"; "b" := "1 2" ]} ["b"; "a"]).
  - unfold range_order. vm_compute. apply perm_swap.
  - intros k v Hkv. apply elem_of_map_to_list in Hkv. vm_compute in Hkv.
    repeat (apply elem_of_cons in Hkv as [Hkv|Hkv]; [by inversion Hkv|]).
    by apply elem_of_nil in Hkv.
Defined.

(** ** One more parameter *)

Section CanonicalInsert.

Implicit Types (params : gmap string string) (keys order : list string).

Lemma byte_lt_le (a b : string) : byte_lt a b → String.le a b.
Proof.
  unfold String.le, byte_lt, String.leb, String.ltb.
  by destruct (String.compare a b).
Qed.

Lemma byte_lt_irrefl (a : string) : ¬ byte_lt a a.
Proof.
  unfold byte_lt, String.ltb. pose proof (String.compare_antisym a a) as Hc.
  destruct (String.compare a a); [done| |done]. discriminate Hc.
Qed.

Lemma concat_snoc (sep : string) (x : string) (xs : list string) (y : string) :
  String.concat sep ((x :: xs) ++ [y]) = String.concat sep (x :: xs) +:+ sep +:+ y.
Proof.
  revert x. induction xs as [|x' xs IH]; intros x; [done|].
  change (String.concat sep ((x :: x' :: xs) ++ [y]))
    with (x +:+ sep +:+ String.concat sep ((x' :: xs) ++ [y])).
  change (String.concat sep (x :: x' :: xs))
    with (x +:+ sep +:+ String.concat sep (x' :: xs)).
  by rewrite IH, !append_assoc.
Qed.

End CanonicalInsert.

(** X4. A parameter whose key sorts after every key of a mapping that is
    not empty adds [&key=value] at the end of the canonical string, the
    value percent-encoded, and leaves the rest as it was. *)
Theorem getRequestParamString_insert_last
    (params : gmap string string) (order order' : list string) (k v : string) :
  range_order params order →
  range_order (<[ k := v ]> params) order' →
  params ≠ ∅ →
  (∀ k', is_Some (params !! k') → byte_lt k' k) →
  getRequestParamString_in order' (<[ k := v ]> params)
  = getRequestParamString_in order params +:+ "&" +:+ k +:+ "=" +:+ urlEncode v.
Proof.
  unfold range_order. intros Horder Horder' Hne Hlast.
  assert (params !! k = None) as Hfresh.
  { destruct (params !! k) eqn:E; [|done].
    destruct (byte_lt_irrefl k). apply Hlast. by rewrite E. }
  assert (sort.Strings order' = sort.Strings order ++ [k]) as Hsorted.
  { apply (StronglySorted_unique String.le); [apply Strings_sorted| |].
    - apply StronglySorted_app_2; [|apply Strings_sorted|repeat constructor].
      intros k1 k2 Hk1 ->%list_elem_of_singleton. apply byte_lt_le, Hlast.
      rewrite Strings_perm, Horder in Hk1.
      apply list_elem_of_fmap in Hk1 as ([k' v'] & -> & Hkv%elem_of_map_to_list).
      by exists v'.
    - rewrite !Strings_perm, Horder', Horder, map_to_list_insert by done.
      cbn. by rewrite Permutation_app_comm. }
  rewrite !getRequestParamString_in_sorted, Hsorted, !fmap_app.
  assert ((λ k', (k', index_map (<[ k := v ]> params) k')) <$> sort.Strings order
          = (λ k', (k', index_map params k')) <$> sort.Strings order) as ->.
  { apply list_fmap_ext. intros i k' Hk'%list_elem_of_lookup_2. f_equal.
    unfold index_map. rewrite lookup_insert_ne; [done|]. intros <-.
    rewrite Strings_perm, Horder in Hk'.
    apply list_elem_of_fmap in Hk' as ([k' v'] & Heq & Hkv%elem_of_map_to_list).
    cbn in Heq. subst k'. congruence. }
  destruct (sort.Strings order) as [|k0 keys] eqn:Hkeys.
  - destruct Hne. apply map_to_list_empty_iff.
    assert (order ≡ₚ []) as Hnil by (by rewrite <- (Strings_perm order), Hkeys).
    rewrite Hnil in Horder. symmetry in Horder. apply Permutation_nil_r in Horder.
    by apply fmap_nil_inv in Horder.
  - cbn [fmap list_fmap]. rewrite (concat_snoc "&").
    unfold param_item at 3. cbn [fst snd]. unfold index_map.
    by rewrite lookup_insert_eq.
Qed.

Lemma getRequestParamString_insert_last_witness :
  getRequestParamString_in ["b"; "a"; "c"] (<[ "c" := "x y" ]> {[ "a" := "1"; "b" := "2" ]})
  = getRequestParamString_in ["b"; "a"] {[ "a" := "1"; "b" := "2" ]}
    +:+ "&" +:+ "c" +:+ "=" +:+ urlEncode "x y".
Proof.
  apply (getRequestParamString_insert_last {[ "a" := "1"; "b" := "2" ]}
           ["b"; "a"] ["b"; "a"; "c"] "c" "x y").
  - unfold range_order. vm_compute. apply perm_swap.
  - unfold range_order. vm_compute.
    apply (perm_trans (l' := ["a"; "b"; "c"])); [apply perm_swap|].
    apply Permutation_sym. change (Permutation ["c"; "a"; "b"] (["a"; "b"] ++ ["c"])).
    apply Permutation_cons_append.
  - intros Hempty. apply (f_equal (λ m : gmap string string, m !! "a")) in Hempty.
    vm_compute in Hempty. discriminate.
  - intros k' [v' Hk']. apply elem_of_map_to_list in Hk'. vm_compute in Hk'.
    repeat (apply elem_of_cons in Hk' as [Hk'|Hk']; [by inversion Hk'|]).
    by apply elem_of_nil in Hk'.
Defined.


(** ** The secret key and the pieces of the signed text *)

(** [n] zero bytes. *)
Definition zeros (n : nat) : string := string_of_list_ascii (repeat Ascii.zero n).

(** The object holds the pads of [key] and has taken in [text]. *)
Definition keyed (key text : list ascii) (m : hmac.hmac sha256_Hash) : Prop :=
  let k := if Nat.ltb 64 (length key) then sha256.Sum256 key else key in
  let k0 := k ++ repeat Ascii.zero (64 - length k) in
  hmac.opad m = map (hmac.xor_byte 0x5c) k0 ∧
  absorbed (hmac.inner m) (map (hmac.xor_byte 0x36) k0 ++ text).

Section SignMore.

Implicit Types (key text p : list ascii) (m : hmac.hmac sha256_Hash).

Lemma list_ascii_of_append (a b : string) :
  list_ascii_of_string (a +:+ b) = list_ascii_of_string a ++ list_ascii_of_string b.
Proof. induction a as [|c a IH]; [done|]. cbn. by rewrite IH. Qed.

Lemma length_list_ascii (a : string) : length (list_ascii_of_string a) = String.length a.
Proof. induction a as [|c a IH]; [done|]. cbn. by rewrite IH. Qed.

Lemma keyed_New key : keyed key [] (hmac.New sha256_Hash key).
Proof.
  unfold keyed, hmac.New.
  cbn [hash.New hash.Write hash.Sum hash.Reset hash.BlockSize sha256_Hash].
  unfold sha256.BlockSize.
  destruct (Nat.ltb_spec 64 (length key)) as [Hlong|Hshort]; cbv zeta iota beta;
    cbn [hmac.opad hmac.inner].
  - rewrite (sha256_Sum_absorbed _ key) by apply (absorbed_Write _ []), absorbed_New.
    cbn [app]. rewrite copy_key by (rewrite length_Sum256; lia).
    split; [done|]. rewrite app_nil_r. apply (absorbed_Write _ []), absorbed_New.
  - rewrite copy_key by done.
    split; [done|]. rewrite app_nil_r. apply (absorbed_Write _ []), absorbed_New.
Qed.

Lemma keyed_Write key text p m :
  keyed key text m → keyed key (text ++ p) (hmac.Write m p).
Proof.
  unfold keyed. cbv zeta. intros [Hopad Hinner]. split; [done|].
  cbn [hmac.Write hmac.inner]. rewrite (assoc_L (++)). by apply absorbed_Write.
Qed.

Lemma keyed_Sum key text m : keyed key text m → hmac.Sum m [] = HMAC_SHA256 key text.
Proof.
  unfold keyed, HMAC_SHA256. cbv zeta. intros [Hopad Hinner]. unfold hmac.Sum.
  cbn [hash.New hash.Write hash.Sum hash.Reset sha256_Hash length].
  rewrite (sha256_Sum_absorbed _ _ [] Hinner). cbn [app take drop].
  rewrite Hopad. apply (sha256_Sum_absorbed _ _ []).
  apply absorbed_Write, (absorbed_Write _ []), absorbed_Reset.
Qed.

Lemma sign_hex_hmac (ak sk t p : string) :
  sign ak sk t p
  = lower_hex (HMAC_SHA256 (list_ascii_of_string sk)
                 (list_ascii_of_string (ak +:+ t +:+ p))).
Proof. unfold sign. by rewrite hmac_sha256, append_assoc, EncodeToString_lower_hex. Qed.

End SignMore.

(** X5. Zero bytes at the end of a secret key that fits a block of 64
    bytes do not count: the key with them signs as the key without them.
    So the empty key, what a missing [MEXC_SECRET_KEY] reads as, signs as
    any key of at most 64 zero bytes. *)
Theorem sign_key_zero_padding (accessKey secretKey reqTime paramStr : string) (n : nat) :
  String.length secretKey + n ≤ 64 →
  sign accessKey (secretKey +:+ zeros n) reqTime paramStr
  = sign accessKey secretKey reqTime paramStr.
Proof.
  intros Hlen. rewrite !sign_hex_hmac. f_equal. unfold HMAC_SHA256, zeros.
  rewrite list_ascii_of_append, list_ascii_of_string_of_list_ascii.
  rewrite length_app, repeat_length, length_list_ascii.
  destruct (Nat.ltb_spec 64 (String.length secretKey + n)); [lia|].
  destruct (Nat.ltb_spec 64 (String.length secretKey)); [lia|].
  rewrite <- (assoc_L (++)), <- repeat_app.
  rewrite !length_app, !repeat_length, !length_list_ascii.
  by replace (n + (64 - (String.length secretKey + n))) with (64 - String.length secretKey) by lia.
Qed.

Lemma sign_key_zero_padding_witness :
  sign "mx0aBYs33eIilxBWC5" ("" +:+ zeros 64) "1700000000000" ""
  = sign "mx0aBYs33eIilxBWC5" "" "1700000000000" "".
Proof.
  apply (sign_key_zero_padding "mx0aBYs33eIilxBWC5" "" "1700000000000" "" 64).
  cbn. lia.
Defined.

(** X6. A secret key longer than a block of 64 bytes signs as its own
    SHA-256 digest, a key of 32 bytes: two long keys with the same digest
    give the same signatures, and the digest of a long key is a key that
    signs for it. *)
Theorem sign_long_key_digest (accessKey secretKey reqTime paramStr : string) :
  64 < String.length secretKey →
  sign accessKey (string_of_list_ascii (sha256.Sum256 (list_ascii_of_string secretKey)))
       reqTime paramStr
  = sign accessKey secretKey reqTime paramStr.
Proof.
  intros Hlen. rewrite !sign_hex_hmac. f_equal. unfold HMAC_SHA256.
  rewrite list_ascii_of_string_of_list_ascii, length_Sum256, length_list_ascii.
  destruct (Nat.ltb_spec 64 (String.length secretKey)); [|lia].
  by destruct (Nat.ltb_spec 64 32); [lia|].
Qed.

Lemma sign_long_key_digest_witness :
  sign "mx0aBYs33eIilxBWC5"
       (string_of_list_ascii (sha256.Sum256 (list_ascii_of_string
          "0123456789abcdef0123456789abcdef0123456789abcdef0123456789abcdef0123456789")))
       "1700000000000" ""
  = sign "mx0aBYs33eIilxBWC5"
       "0123456789abcdef0123456789abcdef0123456789abcdef0123456789abcdef0123456789"
       "1700000000000" "".
Proof.
  apply (sign_long_key_digest "mx0aBYs33eIilxBWC5"
    "0123456789abcdef0123456789abcdef0123456789abcdef0123456789abcdef0123456789"
    "1700000000000" "").
  cbn. lia.
Defined.

(** X7. The signature is that of the three strings written to the MAC one
    after the other: joining them first, as [sign] does, or writing the
    access key, then the timestamp, then the parameter string gives the
    same result.  The signed text has no mark of where one ends and the
    next begins. *)
Theorem sign_streamed (accessKey secretKey reqTime paramStr : string) :
  let mac := hmac.New sha256_Hash (list_ascii_of_string secretKey) in
  let mac := hmac.Write mac (list_ascii_of_string accessKey) in
  let mac := hmac.Write mac (list_ascii_of_string reqTime) in
  let mac := hmac.Write mac (list_ascii_of_string paramStr) in
  hex.EncodeToString (hmac.Sum mac []) = sign accessKey secretKey reqTime paramStr ∧
  ∀ accessKey' reqTime' paramStr',
    accessKey' +:+ reqTime' +:+ paramStr' = accessKey +:+ reqTime +:+ paramStr →
    sign accessKey' secretKey reqTime' paramStr' = sign accessKey secretKey reqTime paramStr.
Proof.
  cbv zeta. split.
  - rewrite sign_hex_hmac, EncodeToString_lower_hex. f_equal.
    rewrite (keyed_Sum (list_ascii_of_string secretKey)
               ((([] ++ list_ascii_of_string accessKey) ++ list_ascii_of_string reqTime)
                ++ list_ascii_of_string paramStr)).
    + by rewrite !list_ascii_of_append, (assoc_L (++)).
    + do 3 apply keyed_Write. apply keyed_New.
  - intros ak' t' p' Heq. by rewrite !sign_hex_hmac, Heq.
Qed.

(** ** What a run reads, sends and prints *)

Definition readings (tr : list event) : list time.Time :=
  omap (λ e, match e with Now t => Some t | _ => None end) tr.

Definition requests (tr : list event) : list http.Request :=
  omap (λ e, match e with Do req => Some req | _ => None end) tr.

Definition printed (tr : list event) : list string :=
  omap (λ e, match e with Stdout text => Some text | _ => None end) tr.

(** The address asked for a position, if its request can be built. *)
Definition built_url (w : World) (base : string) (pos : Position) : option string :=
  match NewRequestErr w "GET" (fair_price_url base (Symbol pos)) with
  | Some _ => None
  | None => Some (fair_price_url base (Symbol pos))
  end.

(** A text of the program's output: it ends its line, and it is a report
    or a diagnostic. *)
Definition output_line (text : string) : Prop :=
  Bytes.last text = Some (ascii_of_nat 10) ∧
  (String.prefix "For " text = true ∨ String.prefix "Error " text = true).

(** Every fair price is fetched and is the average price of its position. *)
Definition all_agree (w : World) (data : list Position) : Prop :=
  ∀ (i : nat) (pos : Position), data !! i = Some pos →
    ∃ fairPrice : float,
      fetch_result w (UnmarshalFairPrice w) (S i)
        (signed_request (accessKey w) (secretKey w)
           (fair_price_url baseURL (Symbol pos)) (Clock w (S i)))
      = Fetched fairPrice ∧
      (fairPrice =? HoldAvgPrice pos)%float = true.

(** The run fits in one second of the clock, and all answers are the
    average price 100 of the sample positions. *)
Definition world_quiet : World := {|
  Getenv := sample_env;
  Clock := λ n, {| time.sec := 1700000000; time.nsec := Z.of_nat n * 1000000 |};
  NewRequestErr := λ _ _, None;
  RoundTrip := λ _ req, Body (http.URL req);
  UnmarshalPositions := λ _, inr sample_positions;
  UnmarshalFairPrice := λ _, inr 100%float
|}.

Ltac printed_text Hin :=
  match type of Hin with
  | Stdout ?text = Stdout ?d => assert (text = d) as -> by congruence
  end.

Section Accounting.

Variable w : World.
Implicit Types (pos : Position) (data : list Position) (tr : list event).

Lemma readings_app tr tr' : readings (tr ++ tr') = readings tr ++ readings tr'.
Proof. apply omap_app. Qed.

Lemma requests_app tr tr' : requests (tr ++ tr') = requests tr ++ requests tr'.
Proof. apply omap_app. Qed.

Lemma printed_app tr tr' : printed (tr ++ tr') = printed tr ++ printed tr'.
Proof. apply omap_app. Qed.

Lemma readings_query ak sk base reads sends pos :
  readings (query_events w ak sk base reads sends pos) = [Clock w reads].
Proof.
  unfold query_events. destruct (fetch_result _ _ _ _); try done.
  by destruct (report _ _ _).
Qed.

Lemma requests_query ak sk base reads sends pos :
  http.URL <$> requests (query_events w ak sk base reads sends pos)
  = option_list (built_url w base pos) ∧
  Forall (λ req, http.Method req = "GET")
    (requests (query_events w ak sk base reads sends pos)).
Proof.
  unfold query_events, fetch_result, built_url.
  cbn [signed_request add_headers http.Method http.URL].
  destruct (NewRequestErr w "GET" _); [by split|].
  destruct (RoundTrip w sends _); try (split; [done | by repeat constructor]).
  destruct (UnmarshalFairPrice w _); try (split; [done | by repeat constructor]).
  destruct (report _ _ _); (split; [done | by repeat constructor]).
Qed.

Lemma printed_query ak sk base reads sends pos :
  length (printed (query_events w ak sk base reads sends pos)) ≤ 1.
Proof.
  unfold query_events. destruct (fetch_result _ _ _ _); cbn; try lia.
  destruct (report _ _ _); cbn; lia.
Qed.

Lemma readings_loop ak sk base reads sends data :
  readings (loop_events w ak sk base reads sends data) = Clock w <$> seq reads (length data).
Proof.
  revert reads sends. induction data as [|pos data IH]; intros reads sends; [done|].
  cbn [loop_events length seq fmap list_fmap].
  by rewrite readings_app, IH, readings_query.
Qed.

Lemma requests_loop ak sk base reads sends data :
  http.URL <$> requests (loop_events w ak sk base reads sends data)
  = omap (built_url w base) data ∧
  Forall (λ req, http.Method req = "GET")
    (requests (loop_events w ak sk base reads sends data)).
Proof.
  revert reads sends. induction data as [|pos data IH]; intros reads sends;
    [by split|].
  cbn [loop_events omap list_omap].
  destruct (requests_query ak sk base reads sends pos) as [Hurl Hget].
  destruct (IH (S reads) (sends + query_sends w base pos)) as [Hurls Hgets].
  rewrite requests_app, fmap_app, Forall_app. split; [|done].
  rewrite Hurl, Hurls. by destruct (built_url w base pos).
Qed.

Lemma printed_loop ak sk base reads sends data :
  length (printed (loop_events w ak sk base reads sends data)) ≤ length data.
Proof.
  revert reads sends. induction data as [|pos data IH]; intros reads sends; [done|].
  cbn [loop_events length]. rewrite printed_app, length_app.
  pose proof (printed_query ak sk base reads sends pos) as Hq.
  specialize (IH (S reads) (sends + query_sends w base pos)). lia.
Qed.

Lemma length_omap_le {A B : Type} (f : A → option B) (l : list A) :
  length (omap f l) ≤ length l.
Proof. induction l as [|a l IH]; [done|]. cbn. destruct (f a); cbn; lia. Qed.

Lemma prefix_append (a b : string) : String.prefix a (a +:+ b) = true.
Proof.
  induction a as [|c a IH]; [by destruct b|].
  cbn. by destruct (ascii_dec c c).
Qed.

Lemma ends_line_append (a b : string) :
  Bytes.last b = Some (ascii_of_nat 10) → Bytes.last (a +:+ b) = Some (ascii_of_nat 10).
Proof. intros Hb. rewrite last_append. by destruct b. Qed.

Lemma sentence_line symbol greater gv lesser lv difference percent :
  output_line (sentence symbol greater gv lesser lv difference percent).
Proof.
  unfold sentence. split; [|left; apply prefix_append].
  by repeat apply ends_line_append.
Qed.

Lemma report_line symbol fairPrice holdAvgPrice line :
  report symbol fairPrice holdAvgPrice = Some line → output_line line.
Proof.
  rewrite report_sentence. destruct (_ =? _)%float; [done|]. cbv zeta.
  intros [= <-]. destruct (_ <? _)%float; apply sentence_line.
Qed.

Lemma fair_price_diagnostic_line {A : Type} symbol (r : fetch A) :
  failed r → output_line (fair_price_diagnostic symbol r).
Proof.
  destruct r; [| | | |done]; intros _; unfold fair_price_diagnostic;
    (split; [by repeat apply ends_line_append | right]).
  - apply (prefix_append "Error " ("creating request for symbol " +:+ _)).
  - apply (prefix_append "Error " ("sending request for symbol " +:+ _)).
  - apply (prefix_append "Error " ("reading response body for symbol " +:+ _)).
  - apply (prefix_append "Error " ("decoding fair price response for " +:+ _)).
Qed.

Lemma positions_diagnostic_line {A : Type} (r : fetch A) :
  failed r → output_line (positions_diagnostic r).
Proof.
  destruct r; [| | | |done]; intros _; unfold positions_diagnostic;
    (split; [by repeat apply ends_line_append | right]).
  - apply (prefix_append "Error " ("creating request: " +:+ _)).
  - apply (prefix_append "Error " ("sending request: " +:+ _)).
  - apply (prefix_append "Error " ("reading response body: " +:+ _)).
  - apply (prefix_append "Error " ("decoding response JSON: " +:+ _)).
Qed.

Lemma query_lines ak sk base reads sends pos text :
  Stdout text ∈ query_events w ak sk base reads sends pos → output_line text.
Proof.
  unfold query_events.
  destruct (fetch_result _ _ _ _) as [err|err|err|err|fairPrice] eqn:E; intros Hin;
    repeat (apply elem_of_cons in Hin as [Hin|Hin]; try discriminate Hin);
    try (by apply elem_of_nil in Hin);
    try (printed_text Hin; by apply fair_price_diagnostic_line).
  destruct (report _ _ _) as [line|] eqn:Hline; [|by apply elem_of_nil in Hin].
  apply elem_of_cons in Hin as [Hin|Hin]; [|by apply elem_of_nil in Hin].
  printed_text Hin. by eapply report_line.
Qed.

Lemma loop_lines ak sk base reads sends data text :
  Stdout text ∈ loop_events w ak sk base reads sends data → output_line text.
Proof.
  revert reads sends. induction data as [|pos data IH]; intros reads sends Hin.
  - by apply elem_of_nil in Hin.
  - cbn [loop_events] in Hin. apply elem_of_app in Hin as [Hin|Hin].
    + by eapply query_lines.
    + by eapply IH.
Qed.

(** A call that prints nothing fetched a price equal to the average. *)
Lemma silent_query ak sk base reads sends pos :
  printed (query_events w ak sk base reads sends pos) = [] →
  query_sends w base pos = 1 ∧
  ∃ fairPrice : float,
    fetch_result w (UnmarshalFairPrice w) sends
      (signed_request ak sk (fair_price_url base (Symbol pos)) (Clock w reads))
    = Fetched fairPrice ∧
    (fairPrice =? HoldAvgPrice pos)%float = true.
Proof.
  unfold query_events, query_sends.
  destruct (fetch_result _ _ _ _) as [err|err|err|err|fairPrice] eqn:E; try done.
  intros Hsilent. split.
  - unfold fetch_result in E. cbn [signed_request add_headers http.Method http.URL] in E.
    by destruct (NewRequestErr w "GET" _).
  - exists fairPrice. split; [done|]. rewrite report_sentence in Hsilent.
    by destruct (_ =? _)%float.
Qed.

Lemma silent_loop ak sk base reads sends data :
  printed (loop_events w ak sk base reads sends data) = [] →
  ∀ (i : nat) pos, data !! i = Some pos →
    ∃ fairPrice : float,
      fetch_result w (UnmarshalFairPrice w) (sends + i)
        (signed_request ak sk (fair_price_url base (Symbol pos)) (Clock w (reads + i)))
      = Fetched fairPrice ∧
      (fairPrice =? HoldAvgPrice pos)%float = true.
Proof.
  revert reads sends. induction data as [|q data IH]; intros reads sends Hsilent i pos Hi;
    [done|].
  cbn [loop_events] in Hsilent.
  rewrite printed_app in Hsilent. apply app_eq_nil in Hsilent as [Hq Hrest].
  apply silent_query in Hq as [Hsent Hq]. rewrite Hsent in Hrest.
  destruct i as [|i].
  - injection Hi as ->. by rewrite !Nat.add_0_r.
  - cbn in Hi. specialize (IH _ _ Hrest i pos Hi).
    by replace (sends + S i) with (sends + 1 + i) by lia;
       replace (reads + S i) with (S reads + i) by lia.
Qed.

(** The request of the [i]-th position of the list, if it can be built, is
    sent with the [i]-th clock reading of the loop. *)
Lemma loop_events_send_at ak sk base reads sends data (i : nat) pos :
  data !! i = Some pos →
  NewRequestErr w "GET" (fair_price_url base (Symbol pos)) = None →
  Do (signed_request ak sk (fair_price_url base (Symbol pos)) (Clock w (reads + i)))
  ∈ loop_events w ak sk base reads sends data.
Proof.
  revert reads sends i. induction data as [|q data IH]; intros reads sends i Hi Hbuilt;
    [done|].
  cbn [loop_events]. apply elem_of_app. destruct i as [|i].
  - injection Hi as ->. left. rewrite Nat.add_0_r.
    unfold query_events, fetch_result. cbn [signed_request add_headers http.Method http.URL].
    rewrite Hbuilt. apply list_elem_of_further.
    destruct (RoundTrip w sends _); [apply list_elem_of_here..|].
    destruct (UnmarshalFairPrice w _); apply list_elem_of_here.
  - right. replace (reads + S i) with (S reads + i) by lia. by apply IH.
Qed.

End Accounting.

(** X8. The receiving side can check every request from the request
    alone: the [Signature] header is the lowercase hexadecimal HMAC-SHA256,
    under the secret key, of the [ApiKey] header followed by the
    [Request-Time] header. *)
Theorem request_signature_verifies (w : World) (req : http.Request) :
  Do req ∈ run w →
  http.Get (http.Hdr req) "Signature"
  = lower_hex (HMAC_SHA256 (list_ascii_of_string (secretKey w))
                 (list_ascii_of_string (http.Get (http.Hdr req) "ApiKey" +:+
                                        http.Get (http.Hdr req) "Request-Time"))).
Proof.
  intros Hin.
  destruct (stamped_Do timestamp _ _ None _ req (stamped_run w) Hin)
    as (t & _ & ->).
  change (http.Get (auth_headers timestamp (accessKey w) (secretKey w) t) "Signature")
    with (sign (accessKey w) (secretKey w) (timestamp t) "").
  change (http.Get (auth_headers timestamp (accessKey w) (secretKey w) t) "ApiKey")
    with (accessKey w).
  change (http.Get (auth_headers timestamp (accessKey w) (secretKey w) t) "Request-Time")
    with (timestamp t).
  by rewrite sign_hex_hmac, append_nil_r.
Qed.

Lemma request_signature_verifies_witness :
  http.Get (http.Hdr (signed_request (accessKey world_down) (secretKey world_down)
                        positions_url (Clock world_down 0))) "Signature"
  = lower_hex (HMAC_SHA256 (list_ascii_of_string (secretKey world_down))
      (list_ascii_of_string
         (http.Get (http.Hdr (signed_request (accessKey world_down) (secretKey world_down)
                                positions_url (Clock world_down 0))) "ApiKey" +:+
          http.Get (http.Hdr (signed_request (accessKey world_down) (secretKey world_down)
                                positions_url (Clock world_down 0))) "Request-Time"))).
Proof.
  apply (request_signature_verifies world_down).
  vm_compute. apply list_elem_of_further, list_elem_of_here.
Defined.

(** X9. Every run starts by reading the clock and reads it in order, the
    n-th reading being the n-th the world gives; it sends no more requests
    and prints no more texts than it read the clock; and every request it
    sends is a [GET]. *)
Theorem run_reads_before_it_sends (w : World) :
  head (run w) = Some (Now (Clock w 0)) ∧
  readings (run w) = Clock w <$> seq 0 (length (readings (run w))) ∧
  length (requests (run w)) ≤ length (readings (run w)) ∧
  length (printed (run w)) ≤ length (readings (run w)) ∧
  Forall (λ req, http.Method req = "GET") (requests (run w)).
Proof.
  rewrite run_main_events. unfold main_events.
  destruct (fetch_result _ _ _ _) as [err|err|err|err|data];
    try (repeat split; cbn; try lia; by repeat constructor).
  cbn [head readings requests printed omap list_omap length].
  fold (readings (loop_events w (accessKey w) (secretKey w) baseURL 1 1 data)).
  fold (requests (loop_events w (accessKey w) (secretKey w) baseURL 1 1 data)).
  fold (printed (loop_events w (accessKey w) (secretKey w) baseURL 1 1 data)).
  destruct (requests_loop w (accessKey w) (secretKey w) baseURL 1 1 data) as [Hurls Hgets].
  pose proof (printed_loop w (accessKey w) (secretKey w) baseURL 1 1 data) as Hprinted.
  apply (f_equal length) in Hurls. rewrite length_fmap in Hurls.
  pose proof (length_omap_le (built_url w baseURL) data) as Hbuilt.
  rewrite readings_loop, length_fmap, length_seq.
  split; [done|]. split; [done|]. split; [lia|]. split; [lia|].
  by constructor.
Qed.

(** X10. When the open positions are fetched, the run reads the clock once
    for the positions and once for each position, whatever becomes of its
    request; it asks for the positions first and then for the fair price
    of each position whose request can be built, in the order of the
    response and once each; the request of a position is signed with the
    clock reading made for that position, not with an earlier one; and
    the run prints at most one text per position. *)
Theorem run_visits_every_position (w : World) (data : list Position) :
  fetch_result w (UnmarshalPositions w) 0
    (signed_request (accessKey w) (secretKey w) positions_url (Clock w 0))
  = Fetched data →
  readings (run w) = Clock w <$> seq 0 (S (length data)) ∧
  http.URL <$> requests (run w) = positions_url :: omap (built_url w baseURL) data ∧
  (∀ (i : nat) pos, data !! i = Some pos →
     NewRequestErr w "GET" (fair_price_url baseURL (Symbol pos)) = None →
     Do (signed_request (accessKey w) (secretKey w)
           (fair_price_url baseURL (Symbol pos)) (Clock w (S i))) ∈ run w) ∧
  length (printed (run w)) ≤ length data.
Proof.
  intros Hfetched. rewrite run_main_events. unfold main_events. rewrite Hfetched.
  cbn [readings requests printed omap list_omap length fmap list_fmap seq].
  fold (readings (loop_events w (accessKey w) (secretKey w) baseURL 1 1 data)).
  fold (requests (loop_events w (accessKey w) (secretKey w) baseURL 1 1 data)).
  fold (printed (loop_events w (accessKey w) (secretKey w) baseURL 1 1 data)).
  destruct (requests_loop w (accessKey w) (secretKey w) baseURL 1 1 data) as [Hurls _].
  rewrite readings_loop. split; [done|]. split; [by rewrite <- Hurls|].
  split; [|apply printed_loop].
  intros i pos Hi Hbuilt. do 2 apply list_elem_of_further.
  apply (loop_events_send_at w (accessKey w) (secretKey w) baseURL 1 1 data i pos Hi Hbuilt).
Qed.

Lemma run_visits_every_position_witness :
  readings (run world_sample) = Clock world_sample <$> seq 0 (S (length sample_positions)) ∧
  http.URL <$> requests (run world_sample)
  = positions_url :: omap (built_url world_sample baseURL) sample_positions ∧
  (∀ (i : nat) pos, sample_positions !! i = Some pos →
     NewRequestErr world_sample "GET" (fair_price_url baseURL (Symbol pos)) = None →
     Do (signed_request (accessKey world_sample) (secretKey world_sample)
           (fair_price_url baseURL (Symbol pos)) (Clock world_sample (S i)))
     ∈ run world_sample) ∧
  length (printed (run world_sample)) ≤ length sample_positions.
Proof.
  apply (run_visits_every_position world_sample sample_positions).
  vm_compute. reflexivity.
Defined.

(** X11. Whatever a run prints is a whole line of one of two kinds: each
    text ends with a line feed and starts with [For ], a report, or with
    [Error ], a diagnostic. *)
Theorem run_prints_lines (w : World) (text : string) :
  Stdout text ∈ run w → output_line text.
Proof.
  rewrite run_main_events. unfold main_events.
  destruct (fetch_result _ _ _ _) as [err|err|err|err|data] eqn:E; intros Hin;
    repeat (apply elem_of_cons in Hin as [Hin|Hin]; try discriminate Hin);
    try (by apply elem_of_nil in Hin);
    try (printed_text Hin; by apply positions_diagnostic_line).
  by eapply loop_lines.
Qed.

Lemma run_prints_lines_witness :
  output_line ("Error sending request: dial tcp: connection refused" +:+ newline).
Proof.
  apply (run_prints_lines world_down).
  vm_compute. do 2 apply list_elem_of_further. apply list_elem_of_here.
Defined.

(** X12. No failure is silent.  A run that prints nothing fetched the
    open positions and, for each of them, sent its request and got a fair
    price equal to the average price of the position. *)
Theorem silent_run_agrees (w : World) :
  printed (run w) = [] →
  ∃ data : list Position,
    fetch_result w (UnmarshalPositions w) 0
      (signed_request (accessKey w) (secretKey w) positions_url (Clock w 0))
    = Fetched data ∧
    all_agree w data.
Proof.
  rewrite run_main_events. unfold main_events.
  destruct (fetch_result _ _ _ _) as [err|err|err|err|data] eqn:E; try done.
  intros Hsilent. exists data. split; [done|].
  intros i pos Hi.
  apply (silent_loop w (accessKey w) (secretKey w) baseURL 1 1 data Hsilent i pos Hi).
Qed.

Lemma silent_run_agrees_witness :
  ∃ data : list Position,
    fetch_result world_quiet (UnmarshalPositions world_quiet) 0
      (signed_request (accessKey world_quiet) (secretKey world_quiet) positions_url
         (Clock world_quiet 0))
    = Fetched data ∧
    all_agree world_quiet data.
Proof.
  apply (silent_run_agrees world_quiet). vm_compute. reflexivity.
Defined.

(** ** Headers and addresses *)

(** X13. The headers of a request say nothing of its address: they are
    made of the two keys and the timestamp alone, so two requests of a run
    with the same [Request-Time], be it for the positions or for the fair
    price of any symbol, carry the same header map, signature included. *)
Theorem headers_ignore_the_address (w : World) (req req' : http.Request) :
  Do req ∈ run w → Do req' ∈ run w →
  http.Get (http.Hdr req) "Request-Time" = http.Get (http.Hdr req') "Request-Time" →
  http.Hdr req = http.Hdr req'.
Proof.
  intros Hin Hin'.
  destruct (stamped_Do timestamp _ _ None _ req (stamped_run w) Hin) as (t & _ & ->).
  destruct (stamped_Do timestamp _ _ None _ req' (stamped_run w) Hin') as (t' & _ & ->).
  change (http.Get (auth_headers timestamp (accessKey w) (secretKey w) t) "Request-Time")
    with (timestamp t).
  change (http.Get (auth_headers timestamp (accessKey w) (secretKey w) t') "Request-Time")
    with (timestamp t').
  unfold auth_headers. by intros ->.
Qed.

Lemma headers_ignore_the_address_witness :
  http.Hdr (signed_request (accessKey world_quiet) (secretKey world_quiet) positions_url
              (Clock world_quiet 0))
  = http.Hdr (signed_request (accessKey world_quiet) (secretKey world_quiet)
                (fair_price_url baseURL "BTC_USDT") (Clock world_quiet 1)).
Proof.
  apply (headers_ignore_the_address world_quiet).
  - vm_compute. apply list_elem_of_further, list_elem_of_here.
  - vm_compute. do 3 apply list_elem_of_further. apply list_elem_of_here.
  - vm_compute. reflexivity.
Defined.

(** ** A negative average price *)

Section ReportMore.

#[local] Open Scope float_scope.

Implicit Types (x y fairPrice holdAvgPrice : float).

Lemma Prim2SF_negative x :
  is_finite x = true → (x <? 0) = true → ∃ m e, Prim2SF x = S754_finite true m e.
Proof.
  intros Hfin%Prim2SF_number Hneg. rewrite FloatAxioms.ltb_spec in Hneg.
  change (Prim2SF 0) with (S754_zero false) in Hneg.
  destruct (Prim2SF x) as [s|s| |[] m e]; try done. eauto.
Qed.

(** The signs of the difference and of the percentage, for a negative
    average price and a different fair price. *)
Lemma difference_signs_negative fairPrice holdAvgPrice :
  is_finite fairPrice = true → is_finite holdAvgPrice = true →
  (holdAvgPrice <? 0) = true → (fairPrice =? holdAvgPrice) = false →
  let difference := fairPrice - holdAvgPrice in
  let percent := difference / holdAvgPrice * 100 in
  (0 <? difference) = (holdAvgPrice <? fairPrice) ∧
  (holdAvgPrice <? fairPrice) = negb (fairPrice <? holdAvgPrice) ∧
  SFsign (Prim2SF difference) = Some (fairPrice <? holdAvgPrice) ∧
  SFsign (Prim2SF percent) = Some (negb (fairPrice <? holdAvgPrice)).
Proof.
  intros Hfx Hfy Hneg Hne difference percent.
  destruct (Prim2SF_negative _ Hfy Hneg) as (my & ey & Hy).
  rewrite FloatAxioms.eqb_spec in Hne.
  destruct (SFsub_sign (Prim2SF fairPrice) (Prim2SF holdAvgPrice))
    as (Hsign & Hnz & Hanti); auto using Prim2SF_valid, Prim2SF_number.
  rewrite <- sub_spec in Hsign, Hnz. fold difference in Hsign, Hnz.
  rewrite !FloatAxioms.ltb_spec. change (Prim2SF 0) with (S754_zero false).
  rewrite (SFltb_zero_sign _ _ Hsign Hnz), Hanti.
  split; [done|]. split; [done|]. split; [done|].
  unfold percent. rewrite mul_spec, div_spec, Hy in *.
  change (Prim2SF 100) with (S754_finite false 7036874417766400 (-46)).
  rewrite (SFmul_sign _ (xorb (SFltb (Prim2SF fairPrice) (S754_finite true my ey)) true) false).
  - by rewrite xorb_false_r, xorb_true_r.
  - by apply SFdiv_sign.
Qed.

Lemma opp_involutive x : - - x = x.
Proof. apply Prim2SF_inj. rewrite !opp_spec. by destruct (Prim2SF x) as [[]|[]| |[] m e]. Qed.

Lemma opp_sign x s : SFsign (Prim2SF x) = Some s → SFsign (Prim2SF (- x)) = Some (negb s).
Proof. rewrite opp_spec. destruct (Prim2SF x); try done; by intros [= <-]. Qed.

(** A float with the sign bit set prints with a minus sign. *)
Lemma FormatFloat_minus (v : float) (n : nat) :
  SFsign (Prim2SF v) = Some true → String.prefix "-" (strconv.FormatFloat v n) = true.
Proof.
  intros Hs. unfold strconv.FormatFloat.
  destruct (Prim2SF v) as [s|s| |s m e]; try done; injection Hs as ->; try done;
    cbn [strconv.sign_string]; apply (prefix_append "-").
Qed.

End ReportMore.

(** X14. With a negative average price and a different fair price, both
    finite, the call still names the greater of the two first and prints
    the difference as a magnitude, but the percentage it prints carries a
    minus sign in both branches: it is minus the magnitude of
    [difference / holdAvgPrice * 100]. *)
Theorem report_negative_average (symbol : string) (fairPrice holdAvgPrice : float) :
  is_finite fairPrice = true → is_finite holdAvgPrice = true →
  (holdAvgPrice <? 0)%float = true → (fairPrice =? holdAvgPrice)%float = false →
  let difference := (fairPrice - holdAvgPrice)%float in
  let percent := (difference / holdAvgPrice * 100)%float in
  report symbol fairPrice holdAvgPrice
  = Some (if (holdAvgPrice <? fairPrice)%float
          then sentence symbol "FairPrice" fairPrice "HoldAvgPrice" holdAvgPrice
                 (abs difference) (- abs percent)
          else sentence symbol "HoldAvgPrice" holdAvgPrice "FairPrice" fairPrice
                 (abs difference) (- abs percent)) ∧
  String.prefix "-" (fmt_2f (- abs percent)) = true ∧
  (fmt_f (abs difference) = "+Inf" ∨ decimals 6 (fmt_f (abs difference))).
Proof.
  intros Hfx Hfy Hneg Hne. cbv zeta.
  pose proof (difference_signs_negative _ _ Hfx Hfy Hneg Hne) as Hsigns.
  cbv zeta in Hsigns. destruct Hsigns as (Hlt & Hanti & Hd & Hp).
  rewrite report_sentence, Hne. cbv zeta. rewrite Hlt.
  rewrite (abs_of_sign _ _ Hd), (abs_of_sign _ _ Hp). rewrite Hanti.
  destruct (fairPrice <? holdAvgPrice)%float; cbn [negb] in *.
  - split; [done|]. split.
    + apply FormatFloat_minus. by apply (opp_sign _ false).
    + apply FormatFloat_unsigned; [done|]. by apply (opp_sign _ true).
  - rewrite opp_involutive. split; [done|]. split.
    + by apply FormatFloat_minus.
    + by apply FormatFloat_unsigned.
Qed.

Lemma report_negative_average_witness :
  let difference := (110 - (-100))%float in
  let percent := (difference / (-100) * 100)%float in
  report "BTC_USDT" 110 (-100)
  = Some (if (-100 <? 110)%float
          then sentence "BTC_USDT" "FairPrice" 110 "HoldAvgPrice" (-100)
                 (abs difference) (- abs percent)
          else sentence "BTC_USDT" "HoldAvgPrice" (-100) "FairPrice" 110
                 (abs difference) (- abs percent)) ∧
  String.prefix "-" (fmt_2f (- abs percent)) = true ∧
  (fmt_f (abs difference) = "+Inf" ∨ decimals 6 (fmt_f (abs difference))).
Proof.
  apply (report_negative_average "BTC_USDT" 110 (-100)); reflexivity.
Defined.
